(** * Block-sync client and sector CBOR codec of lotus: a shallow embedding

    The development follows the two source files:
    - [chain/blocksync/blocksync_client.go]: peer selection, request
      dispatch, response validation and message fetching;
    - the generated CBOR codec of [sector.DealMapping].

    Go values are embedded as follows.  A [uint64] is a [Z] in
    [0, 2^64); a byte is a [Byte.byte]; a [cid.Cid] and a [peer.ID] are Go
    strings and become [string]; a slice is a [list]; the Go map
    [cidIndex] is a [gmap]; an [error] is a value of an inductive type
    whose constructors carry the formatted message.  Functions that return
    [(value, error)] return a [result]; functions that call into the host,
    the peer tracker or the clock thread an event trace through a small
    state monad. *)

From Stdlib Require Import ZArith Lia Strings.Byte String.
From stdpp Require Import gmap strings list fin_maps pretty sorting.

(** ** Results *)

Inductive result (E A : Type) : Type :=
| Ok (a : A)
| Err (e : E).
Arguments Ok {E A} a.
Arguments Err {E A} e.

Definition is_ok {E A} (r : result E A) : bool :=
  match r with Ok _ => true | Err _ => false end.

(** ** cbor-gen primitives

    [cbg] is the third-party library github.com/whyrusleeping/cbor-gen.
    The generated codec only calls its header reader and writer, which
    implement the initial byte and argument of RFC 7049; they are embedded
    here with readers as the list of bytes still to be read. *)

Module cbg.

Local Open Scope Z_scope.

Definition MajUnsignedInt : Z := 0.
Definition MajArray : Z := 4.
Definition MajOther : Z := 7.

Inductive Error : Type :=
| EOF
| ErrUnexpectedEOF
| ErrNotCanonical
| ErrInvalidHeader (first : byte).

(** Conversions between Go's [byte] and the integers: [byte(x)] truncates
    to the low eight bits. *)
Definition byte_to_Z (b : byte) : Z := Z.of_N (Byte.to_N b).

Definition byte_of_Z (z : Z) : byte :=
  match Byte.of_N (Z.to_N (z mod 256)) with
  | Some b => b
  | None => x00
  end.

(** [binary.BigEndian.PutUintN] for an [n]-byte integer: byte [i] is
    [byte(v >> 8*(n-1-i))]. *)
Fixpoint be_put (n : nat) (v : Z) : list byte :=
  match n with
  | O => []
  | S k => byte_of_Z (Z.shiftr v (8 * Z.of_nat k)) :: be_put k v
  end.

(** [binary.BigEndian.UintN]: the bytes or-ed together, the first one
    shifted most. *)
Definition be_get (bs : list byte) : Z :=
  fold_left (fun acc b => Z.lor (Z.shiftl acc 8) (byte_to_Z b)) bs 0.

Definition CborNull : list byte := [byte_of_Z 246].
Definition CborBoolFalse : list byte := [byte_of_Z 244].
Definition CborBoolTrue : list byte := [byte_of_Z 245].

(** [CborEncodeMajorType(t, l)]: the shortest header for argument [l]. *)
Definition CborEncodeMajorType (t : Z) (l : Z) : list byte :=
  if l <? 24 then
    [byte_of_Z (Z.lor (Z.shiftl t 5) l)]
  else if l <? 2 ^ 8 then
    [byte_of_Z (Z.lor (Z.shiftl t 5) 24); byte_of_Z l]
  else if l <? 2 ^ 16 then
    byte_of_Z (Z.lor (Z.shiftl t 5) 25) :: be_put 2 l
  else if l <? 2 ^ 32 then
    byte_of_Z (Z.lor (Z.shiftl t 5) 26) :: be_put 4 l
  else
    byte_of_Z (Z.lor (Z.shiftl t 5) 27) :: be_put 8 l.

(** [CborWriteHeader] writes the same bytes through a scratch buffer. *)
Definition CborWriteHeader (t : Z) (l : Z) : list byte :=
  CborEncodeMajorType t l.

Definition WriteBool (b : bool) : list byte :=
  if b then CborBoolTrue else CborBoolFalse.

Definition readByte (br : list byte) : result Error (byte * list byte) :=
  match br with
  | [] => Err EOF
  | b :: rest => Ok (b, rest)
  end.

(** [io.ReadFull(br, buf)] with [len(buf) = n]. *)
Definition readFull (n : nat) (br : list byte)
  : result Error (list byte * list byte) :=
  match br with
  | [] => match n with O => Ok ([], []) | S _ => Err EOF end
  | _ :: _ =>
      if (length br <? n)%nat then Err ErrUnexpectedEOF
      else Ok (take n br, drop n br)
  end.

(** [CborReadHeader(br)] returns the major type, the argument and the
    reader after the header.  A one-byte argument below 24 is refused as
    not canonical. *)
Definition CborReadHeader (br : list byte)
  : result Error (Z * Z * list byte) :=
  match readByte br with
  | Err e => Err e
  | Ok (first, br1) =>
      let maj := Z.shiftr (Z.land (byte_to_Z first) 224) 5 in
      let low := Z.land (byte_to_Z first) 31 in
      if low <? 24 then Ok (maj, low, br1)
      else if low =? 24 then
        match readByte br1 with
        | Err e => Err e
        | Ok (next, br2) =>
            if byte_to_Z next <? 24 then Err ErrNotCanonical
            else Ok (maj, byte_to_Z next, br2)
        end
      else if low =? 25 then
        match readFull 2 br1 with
        | Err e => Err e
        | Ok (buf, br2) => Ok (maj, be_get buf, br2)
        end
      else if low =? 26 then
        match readFull 4 br1 with
        | Err e => Err e
        | Ok (buf, br2) => Ok (maj, be_get buf, br2)
        end
      else if low =? 27 then
        match readFull 8 br1 with
        | Err e => Err e
        | Ok (buf, br2) => Ok (maj, be_get buf, br2)
        end
      else Err (ErrInvalidHeader first)
  end.

End cbg.

(** ** The generated codec of [sector.DealMapping] *)

Module sector.

Local Open Scope Z_scope.

Record DealMapping : Type := mkDealMapping {
  DealIDs : list Z;      (* []uint64 *)
  Allocated : Z;         (* uint64 *)
  Committed : bool
}.

(** The zero value a fresh [DealMapping] starts from. *)
Definition zero : DealMapping := mkDealMapping [] 0 false.

Definition is_uint64 (v : Z) : Prop := 0 <= v < 2 ^ 64.

(** A value a Go program can hold: every integer field is a [uint64]. *)
Definition well_formed (t : DealMapping) : Prop :=
  Forall is_uint64 (DealIDs t) /\ is_uint64 (Allocated t).

Inductive Error : Type :=
| ErrRead (e : cbg.Error)
    (* the error of CborReadHeader, returned as it is *)
| ErrNotArray
    (* "cbor input should be of type array" *)
| ErrWrongFieldCount
    (* "cbor input had wrong number of fields" *)
| ErrArrayTooLarge (extra : Z)
    (* "t.DealIDs: array too large (%d)" *)
| ErrExpectedArray
    (* "expected cbor array" *)
| ErrReadDealID (e : cbg.Error)
    (* "failed to read uint64 for t.DealIDs slice: %w" *)
| ErrDealIDNotUint (maj : Z)
    (* "value read for array t.DealIDs was not a uint, instead got %d" *)
| ErrWrongTypeUint64
    (* "wrong type for uint64 field" *)
| ErrBoolMajor
    (* "booleans must be major type 7" *)
| ErrBoolValue (extra : Z).
    (* "booleans are either major type 7, value 20 or 21 (got %d)" *)

(** [MarshalCBOR]: the bytes written to [w] when no write fails;
    [None] is the nil receiver. *)
Definition MarshalCBOR (t : option DealMapping) : list byte :=
  match t with
  | None => cbg.CborNull
  | Some t =>
      [cbg.byte_of_Z 131]
      ++ cbg.CborEncodeMajorType cbg.MajArray (Z.of_nat (length (DealIDs t)))
      ++ flat_map (fun v => cbg.CborWriteHeader cbg.MajUnsignedInt v) (DealIDs t)
      ++ cbg.CborEncodeMajorType cbg.MajUnsignedInt (Allocated t)
      ++ cbg.WriteBool (Committed t)
  end.

(** The bytes [MarshalCBOR] writes before the boolean: the header of the
    three-field array, the slice and the integer. *)
Definition fields_prefix (ids : list Z) (alloc : Z) : list byte :=
  cbg.CborEncodeMajorType cbg.MajArray 3
  ++ cbg.CborEncodeMajorType cbg.MajArray (Z.of_nat (length ids))
  ++ flat_map (fun v => cbg.CborWriteHeader cbg.MajUnsignedInt v) ids
  ++ cbg.CborEncodeMajorType cbg.MajUnsignedInt alloc.

(** The loop [for i := 0; i < int(extra); i++] of [UnmarshalCBOR]:
    [n] iterations are left, [i] is the index written next and [ids] is
    [t.DealIDs].  The receiver is updated in place, so the slice built so
    far is returned with the error. *)
Fixpoint readDealIDs (n i : nat) (ids : list Z) (br : list byte)
  : list Z * result Error (list byte) :=
  match n with
  | O => (ids, Ok br)
  | S n' =>
      match cbg.CborReadHeader br with
      | Err e => (ids, Err (ErrReadDealID e))
      | Ok (maj, val, br') =>
          if maj =? cbg.MajUnsignedInt
          then readDealIDs n' (S i) (<[i := val]> ids) br'
          else (ids, Err (ErrDealIDNotUint maj))
      end
  end.

(** [UnmarshalCBOR] on receiver [t] and reader [r]: the receiver after the
    call, and the reader left or the error. *)
Definition UnmarshalCBOR (t : DealMapping) (r : list byte)
  : DealMapping * result Error (list byte) :=
  match cbg.CborReadHeader r with
  | Err e => (t, Err (ErrRead e))
  | Ok (maj, extra, br) =>
  if negb (maj =? cbg.MajArray) then (t, Err ErrNotArray) else
  if negb (extra =? 3) then (t, Err ErrWrongFieldCount) else
  match cbg.CborReadHeader br with
  | Err e => (t, Err (ErrRead e))
  | Ok (maj, extra, br) =>
  if extra >? 8192 then (t, Err (ErrArrayTooLarge extra)) else
  if negb (maj =? cbg.MajArray) then (t, Err ErrExpectedArray) else
  let ids0 :=
    if extra >? 0 then replicate (Z.to_nat extra) 0 else DealIDs t in
  match readDealIDs (Z.to_nat extra) 0 ids0 br with
  | (ids, Err e) => (mkDealMapping ids (Allocated t) (Committed t), Err e)
  | (ids, Ok br) =>
  let t1 := mkDealMapping ids (Allocated t) (Committed t) in
  match cbg.CborReadHeader br with
  | Err e => (t1, Err (ErrRead e))
  | Ok (maj, extra, br) =>
  if negb (maj =? cbg.MajUnsignedInt) then (t1, Err ErrWrongTypeUint64) else
  let t2 := mkDealMapping ids extra (Committed t) in
  match cbg.CborReadHeader br with
  | Err e => (t2, Err (ErrRead e))
  | Ok (maj, extra, br) =>
  if negb (maj =? cbg.MajOther) then (t2, Err ErrBoolMajor) else
  if extra =? 20 then (mkDealMapping ids (Allocated t2) false, Ok br)
  else if extra =? 21 then (mkDealMapping ids (Allocated t2) true, Ok br)
  else (t2, Err (ErrBoolValue extra))
  end end end end end.

End sector.

(** ** The block-sync client *)

Module blocksync.

Local Open Scope Z_scope.

(** *** Errors

    [Errorf] is an error made by [xerrors.Errorf] or [fmt.Errorf] from a
    format without [%w]; [Wrapf] is [xerrors.Errorf("<msg>%w", cause)] and
    [WrapfNil] the same call on the nil error; [Canceled] is what
    [ctx.Err()] returns once the context is done; [Panic] is a run-time
    panic of an out-of-range index. *)

Inductive Error : Type :=
| Errorf (msg : string)
| Wrapf (msg : string) (cause : Error)
| WrapfNil (msg : string)
| Canceled
| Panic.

Definition wrap (msg : string) (cause : option Error) : Error :=
  match cause with
  | Some c => Wrapf msg c
  | None => WrapfNil msg
  end.

(** [err.Error()]. *)
Fixpoint Error_string (e : Error) : string :=
  match e with
  | Errorf msg => msg
  | Wrapf msg c => msg +:+ Error_string c
  | WrapfNil msg => msg +:+ "%!w(<nil>)"
  | Canceled => "context canceled"
  | Panic => "runtime error: index out of range"
  end.

(** [xerrors.Unwrap]. *)
Definition Unwrap (e : Error) : option Error :=
  match e with
  | Wrapf _ c => Some c
  | _ => None
  end.

(** *** Chain types

    The package [chain/types] is not among the sources; the client only
    uses the interface below. *)

Definition Cid : Type := string.
Definition PeerID : Type := string.

(** [types.TipSetKey] with [Cids()] the identity. *)
Definition TipSetKey : Type := list Cid.

(** Modelled from the spec: the block header of [chain/types], which is
    not among the sources.  A decoded value exposing its own content
    identifier, its parents (a tipset key) and a height. *)
Record BlockHeader : Type := mkBlockHeader {
  bh_cid : Cid;
  bh_parents : TipSetKey;
  bh_height : Z
}.

(** Modelled from the spec: the tipset of [chain/types], which is not
    among the sources.  A non-empty set of block headers sharing parents
    and height; its cids are the sorted content identifiers of its
    members. *)
Record TipSet : Type := mkTipSet {
  ts_cids : list Cid;
  ts_blks : list BlockHeader;
  ts_parents : TipSetKey;
  ts_height : Z
}.

Definition Cids (ts : TipSet) : list Cid := ts_cids ts.
Definition Key (ts : TipSet) : TipSetKey := ts_cids ts.
Definition Parents (ts : TipSet) : TipSetKey := ts_parents ts.

Definition cid_le (a b : Cid) : Prop := String.leb a b.

Definition same_parents_height (b0 b : BlockHeader) : bool :=
  bool_decide (bh_parents b = bh_parents b0) && (bh_height b =? bh_height b0).

(** Modelled from the spec: [types.NewTipSet], which is not among the
    sources.  The smart constructor fails if the set is empty or if
    siblings disagree on parents or height. *)
Definition NewTipSet (blks : list BlockHeader) : result Error TipSet :=
  match blks with
  | [] => Err (Errorf "NewTipSet called with zero length array of blocks")
  | b0 :: rest =>
      if forallb (same_parents_height b0) rest
      then Ok (mkTipSet (merge_sort cid_le (map bh_cid blks)) blks
                 (bh_parents b0) (bh_height b0))
      else Err (Errorf "cannot create tipset with mismatching parents or heights")
  end.

(** Modelled from the spec: [types.CidArrsEqual], which is not among the
    sources.  Equality of the two cid lists as ordered sequences. *)
Definition CidArrsEqual (a b : list Cid) : bool := bool_decide (a = b).

(** *** Wire types

    Modelled from the spec: the request, the response and their constants
    are declared in the server half of the package, which is not among the
    sources. *)

Record BSTipSet : Type := mkBSTipSet {
  Blocks : list BlockHeader;
  BlsMessages : list (list byte);
  BlsMsgIncludes : list (list Z);
  SecpkMessages : list (list byte);
  SecpkMsgIncludes : list (list Z)
}.

Record BlockSyncRequest : Type := mkBlockSyncRequest {
  Start : list Cid;
  RequestLength : Z;   (* uint64 *)
  Options : Z          (* uint64 *)
}.

Record BlockSyncResponse : Type := mkBlockSyncResponse {
  Chain : list BSTipSet;
  Status : Z;
  Message : string
}.

Definition BSOptBlocks : Z := 1.
Definition BSOptMessages : Z := 2.

Definition StatusOK : Z := 0.
Definition StatusPartial : Z := 101.
Definition StatusNotFound : Z := 201.
Definition StatusGoAway : Z := 202.
Definition StatusInternalError : Z := 203.
Definition StatusBadRequest : Z := 204.

Definition BlockSyncProtocolID : string := "/fil/sync/blk/0.0.1".
Definition gsproto : string := "/ipfs/graphsync/1.0.0".

(** *** processStatus *)

Definition processStatus (req : BlockSyncRequest) (res : BlockSyncResponse)
  : Error :=
  if Status res =? StatusPartial then
    Errorf "not handling partial blocksync responses yet"
  else if Status res =? StatusNotFound then
    Errorf "not found"
  else if Status res =? StatusGoAway then
    Errorf "not handling 'go away' blocksync responses yet"
  else if Status res =? StatusInternalError then
    Errorf ("block sync peer errored: " +:+ Message res)
  else if Status res =? StatusBadRequest then
    Errorf ("block sync request invalid: " +:+ Message res)
  else
    Errorf ("unrecognized response code: " +:+ pretty (Status res)).

(** *** processBlocksResponse *)

(** The chain element [b] of a response builds the tipset [ts]. *)
Definition builds (b : BSTipSet) (ts : TipSet) : Prop :=
  NewTipSet (Blocks b) = Ok ts.

(** The tipsets [ts] follow [cur] walking the chain backwards: the parents
    of each are the cids of the next. *)
Fixpoint linked_from (cur : TipSet) (ts : list TipSet) : Prop :=
  match ts with
  | [] => True
  | t :: ts' => Parents cur = Cids t /\ linked_from t ts'
  end.

Definition ErrNoBlocks : Error :=
  Errorf "got no blocks in successful blocksync response".

Definition ErrBadLinkage (i j : nat) : Error :=
  Errorf ("parents of tipset[" +:+ pretty i +:+ "] were not tipset["
          +:+ pretty j +:+ "]").

(** The loop [for bi := 1; bi < len(res.Chain); bi++]: [chain] is
    [res.Chain[bi:]], [out] is accumulated in order. *)
Fixpoint processBlocksResponse_loop (bi : nat) (cur : TipSet)
    (out : list TipSet) (chain : list BSTipSet)
  : result Error (list TipSet) :=
  match chain with
  | [] => Ok out
  | next :: chain' =>
      match NewTipSet (Blocks next) with
      | Err e => Err e
      | Ok nts =>
          if negb (CidArrsEqual (Parents cur) (Cids nts))
          then Err (ErrBadLinkage (bi - 1) bi)
          else processBlocksResponse_loop (S bi) nts (out ++ [nts]) chain'
      end
  end.

Definition processBlocksResponse (req : BlockSyncRequest)
    (res : BlockSyncResponse) : result Error (list TipSet) :=
  match Chain res with
  | [] => Err ErrNoBlocks
  | first :: chain' =>
      match NewTipSet (Blocks first) with
      | Err e => Err e
      | Ok cur => processBlocksResponse_loop 1 cur [cur] chain'
      end
  end.

(** *** shufflePrefix

    [perm] is the slice returned by [rand.Perm(pref)].  The result is the
    content of [peers] after the call; [None] is the panic of an index out
    of range. *)

(** [pref]: five, or the number of peers if there are fewer. *)
Definition prefLen (peers : list PeerID) : nat :=
  if (length peers <? 5)%nat then length peers else 5%nat.

(** Go's [copy(dst, src)]: the first [min(len(dst), len(src))] elements of
    [dst] are overwritten. *)
Definition copy {A} (dst src : list A) : list A :=
  take (length dst) src ++ drop (length src) dst.

(** [buf[i] = peers[v]] for every [i, v] of [perm], then
    [copy(peers, buf)]. *)
Definition shufflePrefix (perm : list nat) (peers : list PeerID)
  : option (list PeerID) :=
  buf ← mapM (fun v => peers !! v) perm;
  Some (copy peers buf).

(** *** The host, the peer tracker and the calling context

    Calls that leave the client are recorded in a trace.  The answers of
    the host are functions of the peer; [NewStream] is also handed whether
    the context is already done. *)

Inductive Event : Type :=
| EvNewStream (p : PeerID)        (* bs.host.NewStream *)
| EvRemovePeer (p : PeerID)       (* bs.RemovePeer *)
| EvLogFailure (p : PeerID)       (* bs.peerTracker.logFailure *)
| EvLogSuccess (p : PeerID)       (* bs.peerTracker.logSuccess *)
| EvLogGlobalSuccess              (* bs.peerTracker.logGlobalSuccess *)
| EvTagPeer (p : PeerID)          (* ConnManager().TagPeer(p, "bsync", 25) *)
| EvGraphSync (p : PeerID).       (* bs.fetchBlocksGraphSync *)

Definition is_tracker_report (e : Event) : bool :=
  match e with
  | EvRemovePeer _ | EvLogFailure _ | EvLogSuccess _ => true
  | _ => false
  end.

Record Host : Type := mkHost {
  SupportsProtocols : PeerID -> result Error (list string);
  NewStream : bool -> PeerID -> option Error;
  WriteCborRPC : PeerID -> BlockSyncRequest -> option Error;
  ReadCborRPC : PeerID -> BlockSyncRequest -> result Error BlockSyncResponse;
  fetchBlocksGraphSync :
    PeerID -> BlockSyncRequest -> result Error BlockSyncResponse
}.

(** The context: whether [ctx.Done()] is closed, as a function of the
    number of events so far. *)
Definition Context : Type := nat -> bool.

Definition M (A : Type) : Type := list Event -> A * list Event.

Definition ret {A} (a : A) : M A := fun tr => (a, tr).

Definition bind {A B} (m : M A) (k : A -> M B) : M B :=
  fun tr => let '(a, tr') := m tr in k a tr'.

Notation "'let*' x ':=' m 'in' k" := (bind m (fun x => k))
  (at level 10, x name, m at level 100, k at level 200, only parsing).
Notation "'exec' m 'in' k" := (bind m (fun _ => k))
  (at level 10, m at level 100, k at level 200, only parsing).

Definition emit (e : Event) : M unit := fun tr => (tt, tr ++ [e]).

Definition ctx_Done (ctx : Context) : M bool :=
  fun tr => (ctx (length tr), tr).

(** *** fetchBlocksBlockSync *)

Definition fetchBlocksBlockSync (h : Host) (ctx : Context) (peer : PeerID)
    (req : BlockSyncRequest) : M (result Error BlockSyncResponse) :=
  let* done := ctx_Done ctx in
  exec emit (EvNewStream peer) in
  match NewStream h done peer with
  | Some err =>
      exec emit (EvRemovePeer peer) in
      ret (Err (Wrapf "failed to open stream to peer: " err))
  | None =>
      match WriteCborRPC h peer req with
      | Some err => exec emit (EvLogFailure peer) in ret (Err err)
      | None =>
          match ReadCborRPC h peer req with
          | Err err => exec emit (EvLogFailure peer) in ret (Err err)
          | Ok res => exec emit (EvLogSuccess peer) in ret (Ok res)
          end
      end
  end.

(** *** sendRequestToPeer *)

Definition show_strings (l : list string) : string :=
  "[" +:+ String.concat " " l +:+ "]".

Definition sendRequestToPeer (h : Host) (ctx : Context) (peer : PeerID)
    (req : BlockSyncRequest) : M (result Error BlockSyncResponse) :=
  match SupportsProtocols h peer with
  | Err err =>
      ret (Err (Wrapf "failed to get protocols for peer: " err))
  | Ok [] =>
      ret (Err (Errorf ("peer " +:+ peer +:+ " supports no known sync protocols")))
  | Ok (supp0 :: supp') =>
      if String.eqb supp0 BlockSyncProtocolID then
        let* r := fetchBlocksBlockSync h ctx peer req in
        match r with
        | Err err => ret (Err (Wrapf "blocksync req failed: " err))
        | Ok res => ret (Ok res)
        end
      else if String.eqb supp0 gsproto then
        exec emit (EvGraphSync peer) in
        match fetchBlocksGraphSync h peer req with
        | Err err => ret (Err (Wrapf "graphsync req failed: " err))
        | Ok res => ret (Ok res)
        end
      else
        ret (Err (Errorf ("peerstore somehow returned unexpected protocols: "
                          +:+ show_strings (supp0 :: supp'))))
  end.

(** *** GetBlocks *)

Definition ErrAllPeersFailed (oerr : option Error) : Error :=
  wrap "GetBlocks failed with all peers: " oerr.

(** The loop [for _, p := range peers] of [GetBlocks], with [oerr] the
    last error seen. *)
Fixpoint GetBlocks_loop (h : Host) (ctx : Context) (req : BlockSyncRequest)
    (peers : list PeerID) (oerr : option Error)
  : M (result Error (list TipSet)) :=
  match peers with
  | [] => ret (Err (ErrAllPeersFailed oerr))
  | p :: peers' =>
      let* done := ctx_Done ctx in
      if done then
        ret (Err (Wrapf "blocksync getblocks failed: " Canceled))
      else
        let* r := sendRequestToPeer h ctx p req in
        match r with
        | Err err => GetBlocks_loop h ctx req peers' (Some err)
        | Ok res =>
            if (Status res =? StatusOK) || (Status res =? StatusPartial) then
              match processBlocksResponse req res with
              | Err err =>
                  ret (Err (Wrapf "success response from peer failed to process: "
                              err))
              | Ok resp =>
                  exec emit EvLogGlobalSuccess in
                  exec emit (EvTagPeer p) in
                  ret (Ok resp)
              end
            else
              GetBlocks_loop h ctx req peers' (Some (processStatus req res))
        end
  end.

(** [peers] is what [bs.getPeers()] returns and [perm] what [rand.Perm]
    returns inside [shufflePrefix]; [count] is a Go [int]. *)
Definition GetBlocks (h : Host) (peers : list PeerID) (perm : list nat)
    (ctx : Context) (tsk : TipSetKey) (count : Z)
  : M (result Error (list TipSet)) :=
  let req := mkBlockSyncRequest tsk (count mod 2 ^ 64) BSOptBlocks in
  match shufflePrefix perm peers with
  | None => ret (Err Panic)
  | Some peers => GetBlocks_loop h ctx req peers None
  end.

(** *** GetChainMessages *)

Fixpoint GetChainMessages_loop (h : Host) (ctx : Context)
    (req : BlockSyncRequest) (npeers : nat) (peers : list PeerID)
    (err : option Error) : M (result Error (list BSTipSet)) :=
  match peers with
  | [] =>
      match err with
      | None =>
          ret (Err (Errorf "GetChainMessages failed, no peers connected"))
      | Some e =>
          ret (Err (Wrapf ("GetChainMessages failed with all peers("
                           +:+ pretty npeers +:+ "): ") e))
      end
  | p :: peers' =>
      let* r := sendRequestToPeer h ctx p req in
      match r with
      | Err rerr => GetChainMessages_loop h ctx req npeers peers' (Some rerr)
      | Ok res =>
          if Status res =? StatusOK then
            exec emit EvLogGlobalSuccess in ret (Ok (Chain res))
          else if Status res =? StatusPartial then
            ret (Ok (Chain res))
          else
            GetChainMessages_loop h ctx req npeers peers'
              (Some (processStatus req res))
      end
  end.

(** [hd] is [h.Cids()] of the head tipset; [count] is a [uint64]. *)
Definition GetChainMessages (h : Host) (peers : list PeerID)
    (perm : list nat) (ctx : Context) (hd : TipSet) (count : Z)
  : M (result Error (list BSTipSet)) :=
  match shufflePrefix perm peers with
  | None => ret (Err Panic)
  | Some peers =>
      let req := mkBlockSyncRequest (Cids hd) count BSOptMessages in
      GetChainMessages_loop h ctx req (length peers) peers None
  end.

(** *** GetFullTipSet

    [bstsToFullTipSet] belongs to the server half of the package and
    [strconv.Quote] (the verb [%q]) to the Go library; both are taken as
    parameters. *)

Section fulltipset.

Context {FullTipSet : Type}.
Variable bstsToFullTipSet : BSTipSet -> result Error FullTipSet.
Variable Quote : string -> string.

(** The request of [GetFullTipSet]: one tipset, blocks and messages. *)
Definition fullTipSetRequest (tsk : TipSetKey) : BlockSyncRequest :=
  mkBlockSyncRequest tsk 1 (Z.lor BSOptBlocks BSOptMessages).

Definition GetFullTipSet (h : Host) (ctx : Context) (p : PeerID)
    (tsk : TipSetKey) : M (result Error FullTipSet) :=
  let req := fullTipSetRequest tsk in
  let* r := sendRequestToPeer h ctx p req in
  match r with
  | Err err => ret (Err err)
  | Ok res =>
      if Status res =? 0 then
        match Chain res with
        | [] => ret (Err (Errorf "got zero length chain response"))
        | bts :: _ => ret (bstsToFullTipSet bts)
        end
      else if Status res =? 101 then
        ret (Err (Errorf "partial responses are not handled for single tipset fetching"))
      else if Status res =? 201 then
        ret (Err (Errorf "not found"))
      else if Status res =? 202 then
        ret (Err (Errorf "received 'go away' response peer"))
      else if Status res =? 203 then
        ret (Err (Errorf ("block sync peer errored: " +:+ Quote (Message res))))
      else if Status res =? 204 then
        ret (Err (Errorf ("block sync request invalid: " +:+ Quote (Message res))))
      else
        ret (Err (Errorf "unrecognized response code"))
  end.

End fulltipset.

(** *** Reading a trace *)

(** The peer an event is about. *)
Definition event_peer (e : Event) : option PeerID :=
  match e with
  | EvNewStream p | EvRemovePeer p | EvLogFailure p | EvLogSuccess p
  | EvTagPeer p | EvGraphSync p => Some p
  | EvLogGlobalSuccess => None
  end.

(** The peer a request is sent to: a stream opened for the block-sync
    protocol, or a graphsync fetch. *)
Definition contacted (e : Event) : option PeerID :=
  match e with
  | EvNewStream p | EvGraphSync p => Some p
  | _ => None
  end.

(** The peers contacted along a trace, in order. *)
Definition contacts (tr : list Event) : list PeerID := omap contacted tr.

(** The event is about one of the peers [ps], or is the global success. *)
Definition about_peers (ps : list PeerID) (e : Event) : Prop :=
  e = EvLogGlobalSuccess \/ exists q, event_peer e = Some q /\ q ∈ ps.

(** *** fetchCids and the message fetchers

    The channel returned by [bs.bserv.GetBlocks] is the list of blocks it
    delivers before it is closed: a receive from the empty list is a
    receive from the closed channel. *)

Record Block : Type := mkBlock {
  blk_cid : Cid;          (* block.Cid() *)
  RawData : list byte     (* block.RawData() *)
}.

(** [cidIndex[c] = i] for every [i, c] of [cids], in order. *)
Fixpoint build_cidIndex (i : nat) (cids : list Cid) (m : gmap Cid nat)
  : gmap Cid nat :=
  match cids with
  | [] => m
  | c :: cids' => build_cidIndex (S i) cids' (<[c := i]> m)
  end.

Definition ErrFetchAll : Error := Errorf "failed to fetch all messages".
Definition ErrUnsolicited : Error := Errorf "received message we didnt ask for".
Definition ErrDuplicate : Error := Errorf "received duplicate message".

Section fetch.

(** The state the callback closes over. *)
Context {S : Type}.
Variable cb : nat -> Block -> S -> result Error S.

(** The loop [for i := 0; i < len(cids); i++] with [n] iterations left.
    On the closed channel with [i == len(cids)-1] the [break] leaves the
    [select] only, and the loop goes on to [i++]. *)
Fixpoint fetchCids_loop (len : nat) (cidIndex : gmap Cid nat)
    (n i : nat) (fetchedBlocks : list Block) (st : S) : result Error S :=
  match n with
  | O => Ok st
  | Datatypes.S n' =>
      match fetchedBlocks with
      | [] =>
          if decide (i = len - 1)%nat
          then fetchCids_loop len cidIndex n' (Datatypes.S i) [] st
          else Err ErrFetchAll
      | block :: rest =>
          match cidIndex !! blk_cid block with
          | None => Err ErrUnsolicited
          | Some ix =>
              match cb ix block st with
              | Err err => Err err
              | Ok st' =>
                  fetchCids_loop len cidIndex n' (Datatypes.S i) rest st'
              end
          end
      end
  end.

(** [ctx] is received and not used: the blocks are requested under
    [context.TODO()] and the [select] has the channel receive as its only
    case. *)
Definition fetchCids (ctx : Context) (cids : list Cid)
    (fetchedBlocks : list Block) (st : S) : result Error S :=
  fetchCids_loop (length cids) (build_cidIndex 0 cids ∅)
    (length cids) 0 fetchedBlocks st.

End fetch.

Section fetchers.

(** [types.DecodeMessage] and [types.DecodeSignedMessage] are not among
    the sources: pure functions from bytes to a message or an error. *)
Context {Msg : Type}.
Variable Decode : list byte -> result Error Msg.

(** The callback of the fetchers; [out] is the slice of pointers, [None]
    the nil pointer. *)
Definition place (i : nat) (b : Block) (out : list (option Msg))
  : result Error (list (option Msg)) :=
  match Decode (RawData b) with
  | Err err => Err err
  | Ok msg =>
      match out !! i with
      | None => Err Panic
      | Some (Some _) => Err ErrDuplicate
      | Some None => Ok (<[i := Some msg]> out)
      end
  end.

Definition fetchByCids (ctx : Context) (cids : list Cid)
    (fetchedBlocks : list Block) : result Error (list (option Msg)) :=
  let out := replicate (length cids) None in
  match fetchCids place ctx cids fetchedBlocks out with
  | Err err => Err err
  | Ok out => Ok out
  end.

End fetchers.

(** [FetchMessagesByCids] and [FetchSignedMessagesByCids] differ in the
    decoder only. *)
Definition FetchMessagesByCids {Message : Type}
    (DecodeMessage : list byte -> result Error Message) :=
  fetchByCids DecodeMessage.

Definition FetchSignedMessagesByCids {SignedMessage : Type}
    (DecodeSignedMessage : list byte -> result Error SignedMessage) :=
  fetchByCids DecodeSignedMessage.

End blocksync.

(** ** Scenarios

    Concrete hosts, responses and block streams on which the client is
    run. *)

Module scenario.

Import blocksync.
Local Open Scope Z_scope.

Definition never_done : Context := fun _ => false.
Definition cancelled : Context := fun _ => true.


Definition hdr1 : BlockHeader := mkBlockHeader "cid-1" ["cid-2"] 10.
Definition hdr2 : BlockHeader := mkBlockHeader "cid-2" ["cid-3"] 9.
Definition hdr9 : BlockHeader := mkBlockHeader "cid-9" ["cid-8"] 4.

Definition wire (b : BlockHeader) : BSTipSet := mkBSTipSet [b] [] [] [] [].

Definition tipset_of (b : BlockHeader) : TipSet :=
  mkTipSet [bh_cid b] [b] (bh_parents b) (bh_height b).

(** A well-linked chain of two tipsets starting at [cid-1]. *)
Definition resp_two : BlockSyncResponse :=
  mkBlockSyncResponse [wire hdr1; wire hdr2] StatusOK "".

(** A chain whose second tipset is not the parent of the first. *)
Definition resp_unlinked : BlockSyncResponse :=
  mkBlockSyncResponse [wire hdr1; wire hdr9] StatusOK "".

Definition resp_empty : BlockSyncResponse :=
  mkBlockSyncResponse [] StatusOK "".

Definition resp_not_found : BlockSyncResponse :=
  mkBlockSyncResponse [] StatusNotFound "".

(** A host on which every peer speaks the block-sync protocol, a stream
    opens unless the context is done, the write succeeds, and the peer
    answers [answer peer]. *)
Definition host_of (answer : PeerID -> BlockSyncResponse) : Host :=
  mkHost
    (fun _ => Ok [BlockSyncProtocolID])
    (fun done _ => if done then Some Canceled else None)
    (fun _ _ => None)
    (fun p _ => Ok (answer p))
    (fun _ _ => Err (Errorf "graphsync is not used")).

(** Peer B does not have the tipset; every other peer answers [res]. *)
Definition answer_after_B (res : BlockSyncResponse) (p : PeerID)
  : BlockSyncResponse :=
  if String.eqb p "B" then resp_not_found else res.

(** A host whose transport fails at the stage given for the peer. *)
Definition host_failing : Host :=
  mkHost
    (fun _ => Ok [BlockSyncProtocolID])
    (fun _ p => if String.eqb p "A" then Some (Errorf "no usable connection to peer") else None)
    (fun p _ => if String.eqb p "B" then Some (Errorf "write timeout") else None)
    (fun p _ => if String.eqb p "C" then Err (Errorf "stream reset") else Ok resp_two)
    (fun _ _ => Err (Errorf "graphsync is not used")).

(** A host whose peers all advertise graphsync after block-sync. *)
Definition host_both (answer : PeerID -> BlockSyncResponse) : Host :=
  mkHost
    (fun _ => Ok [BlockSyncProtocolID; gsproto])
    (fun done _ => if done then Some Canceled else None)
    (fun _ _ => None)
    (fun p _ => Ok (answer p))
    (fun _ _ => Err (Errorf "graphsync is not used")).

(** A full tipset that is the wire tipset itself, and a quoting that adds
    nothing. *)
Definition full_of (bts : BSTipSet) : result Error BSTipSet := Ok bts.
Definition quote_plain (msg : string) : string := msg.

(** Messages that decode to their own bytes. *)
Definition decode_raw (raw : list byte) : result Error (list byte) := Ok raw.

Definition blockX : Block := mkBlock "cid-X" [cbg.byte_of_Z 1].
Definition blockY : Block := mkBlock "cid-Y" [cbg.byte_of_Z 2].

End scenario.

(** * Properties *)

(** ** The header codec of cbor-gen *)

Section cbg_facts.

Import cbg.
Local Open Scope Z_scope.

Lemma byte_to_Z_range b : 0 <= byte_to_Z b < 256.
Proof.
  unfold byte_to_Z. pose proof (Byte.to_N_bounded b) as Hb.
  lia.
Qed.

Lemma byte_to_of_Z z : byte_to_Z (byte_of_Z z) = z mod 256.
Proof.
  unfold byte_to_Z, byte_of_Z.
  assert (0 <= z mod 256 < 256) by (apply Z.mod_pos_bound; lia).
  destruct (Byte.of_N (Z.to_N (z mod 256))) as [b|] eqn:E.
  - apply Byte.to_of_N in E. rewrite E. lia.
  - apply Byte.of_N_None_iff in E. lia.
Qed.

Lemma byte_of_to_Z b : byte_of_Z (byte_to_Z b) = b.
Proof.
  unfold byte_of_Z. pose proof (byte_to_Z_range b).
  rewrite Z.mod_small by lia. unfold byte_to_Z.
  rewrite N2Z.id, Byte.of_to_N. reflexivity.
Qed.

Lemma lor_shiftl_8 acc b :
  0 <= b < 256 -> Z.lor (Z.shiftl acc 8) b = acc * 256 + b.
Proof.
  intros Hb. rewrite Z.shiftl_mul_pow2 by lia.
  change (2 ^ 8) with 256. symmetry. apply Z.add_nocarry_lor.
  apply Z.bits_inj'. intros n Hn.
  rewrite Z.land_spec, Z.bits_0.
  destruct (Z.lt_ge_cases n 8) as [Hlt|Hge].
  - change 256 with (2 ^ 8). rewrite Z.mul_pow2_bits_low by lia. reflexivity.
  - replace b with (b mod 2 ^ 8) by (apply Z.mod_small; lia).
    rewrite Z.mod_pow2_bits_high by lia. apply andb_false_r.
Qed.

Lemma be_put_length n v : length (be_put n v) = n.
Proof. induction n as [|n IH]; simpl; [reflexivity | now rewrite IH]. Qed.

Lemma be_get_put_acc n : forall v acc,
  fold_left (fun a b => Z.lor (Z.shiftl a 8) (byte_to_Z b)) (be_put n v) acc
  = acc * 2 ^ (8 * Z.of_nat n) + v mod 2 ^ (8 * Z.of_nat n).
Proof.
  induction n as [|k IH]; intros v acc.
  - simpl. rewrite Z.mod_1_r. lia.
  - cbn [be_put fold_left]. rewrite IH.
    rewrite lor_shiftl_8 by apply byte_to_Z_range.
    rewrite byte_to_of_Z, Z.shiftr_div_pow2 by lia.
    replace (8 * Z.of_nat (S k)) with (8 * Z.of_nat k + 8) by lia.
    rewrite Z.pow_add_r by lia. change (2 ^ 8) with 256.
    assert (0 < 2 ^ (8 * Z.of_nat k)) by (apply Z.pow_pos_nonneg; lia).
    rewrite (Z.rem_mul_r v (2 ^ (8 * Z.of_nat k)) 256) by lia.
    ring.
Qed.

Lemma be_get_put n v :
  0 <= v < 2 ^ (8 * Z.of_nat n) -> be_get (be_put n v) = v.
Proof.
  intros Hv. unfold be_get. rewrite be_get_put_acc.
  rewrite Z.mod_small by lia. lia.
Qed.

(** The initial byte keeps the major type in its high three bits and the
    additional information in its low five. *)
Lemma initial_byte_all :
  forallb (fun maj => forallb (fun low =>
    let first := byte_to_Z (byte_of_Z (Z.lor (Z.shiftl maj 5) low)) in
    (Z.shiftr (Z.land first 224) 5 =? maj) && (Z.land first 31 =? low))
    (seqZ 0 32)) (seqZ 0 8) = true.
Proof. vm_compute. reflexivity. Qed.

Lemma initial_byte maj low :
  0 <= maj < 8 -> 0 <= low < 32 ->
  let first := byte_to_Z (byte_of_Z (Z.lor (Z.shiftl maj 5) low)) in
  Z.shiftr (Z.land first 224) 5 = maj /\ Z.land first 31 = low.
Proof.
  intros Hm Hl. pose proof initial_byte_all as H.
  rewrite forallb_forall in H. specialize (H maj).
  rewrite forallb_forall in H. specialize (H ltac:(apply list_elem_of_In, elem_of_seqZ; lia) low).
  specialize (H ltac:(apply list_elem_of_In, elem_of_seqZ; lia)).
  cbv zeta in H. apply andb_true_iff in H as [H1 H2].
  apply Z.eqb_eq in H1, H2. split; assumption.
Qed.

Lemma readFull_app n buf rest :
  length buf = n -> (0 < n)%nat -> readFull n (buf ++ rest) = Ok (buf, rest).
Proof.
  intros Hlen Hn. unfold readFull.
  destruct (buf ++ rest) as [|b l] eqn:E.
  - destruct buf; simpl in *; [lia | discriminate].
  - rewrite <- E.
    destruct (Nat.ltb_spec (length (buf ++ rest)) n) as [Hlt|_].
    + rewrite length_app in Hlt. lia.
    + rewrite take_app_length' by (symmetry; exact Hlen).
      rewrite drop_app_length' by (symmetry; exact Hlen). reflexivity.
Qed.

(** Reading back a header written by [CborEncodeMajorType]. *)
Lemma CborReadHeader_encode maj v rest :
  0 <= maj < 8 -> 0 <= v < 2 ^ 64 ->
  CborReadHeader (CborEncodeMajorType maj v ++ rest) = Ok (maj, v, rest).
Proof.
  intros Hm Hv. unfold CborEncodeMajorType.
  destruct (Z.ltb_spec v 24) as [H24|H24].
  { destruct (initial_byte maj v) as [E1 E2]; [lia | lia |].
    unfold CborReadHeader. cbn [app readByte]. cbv zeta.
    rewrite E1, E2.
    destruct (Z.ltb_spec v 24); [reflexivity | lia]. }
  destruct (Z.ltb_spec v (2 ^ 8)) as [H8|H8].
  { destruct (initial_byte maj 24) as [E1 E2]; [lia | lia |].
    unfold CborReadHeader. cbn [app readByte]. cbv zeta.
    rewrite E1, E2. cbn [Z.ltb Z.eqb Z.compare Pos.compare Pos.compare_cont Pos.eqb].
    rewrite byte_to_of_Z, Z.mod_small by lia.
    destruct (Z.ltb_spec v 24); [lia | reflexivity]. }
  destruct (Z.ltb_spec v (2 ^ 16)) as [H16|H16].
  { destruct (initial_byte maj 25) as [E1 E2]; [lia | lia |].
    unfold CborReadHeader. rewrite <- app_comm_cons. cbn [readByte]. cbv zeta.
    rewrite E1, E2. cbn [Z.ltb Z.eqb Z.compare Pos.compare Pos.compare_cont Pos.eqb].
    rewrite readFull_app by (rewrite ?be_put_length; lia).
    rewrite be_get_put by (change (2 ^ (8 * Z.of_nat 2)) with (2 ^ 16); lia).
    reflexivity. }
  destruct (Z.ltb_spec v (2 ^ 32)) as [H32|H32].
  { destruct (initial_byte maj 26) as [E1 E2]; [lia | lia |].
    unfold CborReadHeader. rewrite <- app_comm_cons. cbn [readByte]. cbv zeta.
    rewrite E1, E2. cbn [Z.ltb Z.eqb Z.compare Pos.compare Pos.compare_cont Pos.eqb].
    rewrite readFull_app by (rewrite ?be_put_length; lia).
    rewrite be_get_put by (change (2 ^ (8 * Z.of_nat 4)) with (2 ^ 32); lia).
    reflexivity. }
  destruct (initial_byte maj 27) as [E1 E2]; [lia | lia |].
  unfold CborReadHeader. rewrite <- app_comm_cons. cbn [readByte]. cbv zeta.
  rewrite E1, E2. cbn [Z.ltb Z.eqb Z.compare Pos.compare Pos.compare_cont Pos.eqb].
  rewrite readFull_app by (rewrite ?be_put_length; lia).
  rewrite be_get_put by (change (2 ^ (8 * Z.of_nat 8)) with (2 ^ 64); lia).
  reflexivity.
Qed.

(** A boolean reads back as a header of major type 7 with value 20 or 21. *)
Lemma CborReadHeader_bool b rest :
  CborReadHeader (WriteBool b ++ rest)
  = Ok (MajOther, if b then 21 else 20, rest).
Proof. destruct b; reflexivity. Qed.

End cbg_facts.

(** ** The codec of [DealMapping] *)

Section sector_facts.

Import cbg sector.
Local Open Scope Z_scope.

Lemma MarshalCBOR_prefix t :
  MarshalCBOR (Some t)
  = fields_prefix (DealIDs t) (Allocated t) ++ WriteBool (Committed t).
Proof.
  unfold MarshalCBOR, fields_prefix.
  change (CborEncodeMajorType MajArray 3) with [byte_of_Z 131].
  rewrite <- !app_assoc. reflexivity.
Qed.

(** The element loop reads back the elements [MarshalCBOR] wrote, filling
    the slice from index [length done] on. *)
Lemma readDealIDs_encode vs : forall done rest,
  Forall is_uint64 vs ->
  readDealIDs (length vs) (length done) (done ++ replicate (length vs) 0)
    (flat_map (fun v => CborWriteHeader MajUnsignedInt v) vs ++ rest)
  = (done ++ vs, Ok rest).
Proof.
  induction vs as [|v vs IH]; intros done rest Hvs.
  - reflexivity.
  - inversion Hvs as [|? ? Hv Hvs']; subst.
    cbn [length flat_map readDealIDs replicate].
    unfold CborWriteHeader at 1. rewrite <- app_assoc.
    rewrite CborReadHeader_encode by (unfold MajUnsignedInt, is_uint64 in *; lia).
    change (MajUnsignedInt =? MajUnsignedInt) with true. cbv iota.
    rewrite insert_app_r_alt by lia. rewrite Nat.sub_diag. cbn [insert list_insert].
    specialize (IH (done ++ [v]) rest Hvs').
    rewrite length_app, <- !app_assoc in IH. cbn [length app] in IH.
    replace (length done + 1)%nat with (S (length done)) in IH by lia.
    exact IH.
Qed.

(** Decoding the three leading fields: what is left is the decoding of the
    boolean.  An empty array leaves the receiver's slice as it was. *)
Lemma UnmarshalCBOR_prefix t0 ids alloc tail :
  Forall is_uint64 ids -> Z.of_nat (length ids) <= 8192 -> is_uint64 alloc ->
  UnmarshalCBOR t0 (fields_prefix ids alloc ++ tail)
  = let ids' := match ids with [] => DealIDs t0 | _ => ids end in
    let t2 := mkDealMapping ids' alloc (Committed t0) in
    match CborReadHeader tail with
    | Err e => (t2, Err (ErrRead e))
    | Ok (maj, extra, br) =>
        if negb (maj =? MajOther) then (t2, Err ErrBoolMajor)
        else if extra =? 20 then (mkDealMapping ids' alloc false, Ok br)
        else if extra =? 21 then (mkDealMapping ids' alloc true, Ok br)
        else (t2, Err (ErrBoolValue extra))
    end.
Proof.
  intros Hids Hlen Halloc. unfold UnmarshalCBOR, fields_prefix.
  rewrite <- !app_assoc.
  rewrite CborReadHeader_encode by (unfold MajArray; lia).
  change (negb (MajArray =? MajArray)) with false.
  change (negb (3 =? 3)) with false. cbv iota.
  rewrite CborReadHeader_encode by (unfold MajArray; lia).
  change (negb (MajArray =? MajArray)) with false.
  destruct (Z.gtb_spec (Z.of_nat (length ids)) 8192) as [Hgt|_]; [lia|].
  cbv iota. rewrite Nat2Z.id.
  assert (Hrd :
    readDealIDs (length ids) 0
      (if Z.of_nat (length ids) >? 0 then replicate (length ids) 0
       else DealIDs t0)
      (flat_map (fun v => CborWriteHeader MajUnsignedInt v) ids
       ++ CborEncodeMajorType MajUnsignedInt alloc ++ tail)
    = (match ids with [] => DealIDs t0 | _ => ids end,
       Ok (CborEncodeMajorType MajUnsignedInt alloc ++ tail))).
  { destruct ids as [|v vs].
    - reflexivity.
    - destruct (Z.gtb_spec (Z.of_nat (length (v :: vs))) 0) as [_|Hle];
        [|cbn [length] in Hle; lia].
      apply (readDealIDs_encode (v :: vs) []). exact Hids. }
  rewrite Hrd.
  rewrite CborReadHeader_encode by (unfold MajUnsignedInt, is_uint64 in *; lia).
  change (negb (MajUnsignedInt =? MajUnsignedInt)) with false. cbv iota.
  cbn [Allocated Committed]. reflexivity.
Qed.

(** Decoding what [MarshalCBOR] wrote, into any receiver. *)
Lemma UnmarshalCBOR_MarshalCBOR t0 t rest :
  well_formed t -> Z.of_nat (length (DealIDs t)) <= 8192 ->
  UnmarshalCBOR t0 (MarshalCBOR (Some t) ++ rest)
  = (mkDealMapping
       (match DealIDs t with [] => DealIDs t0 | _ => DealIDs t end)
       (Allocated t) (Committed t), Ok rest).
Proof.
  intros [Hids Halloc] Hlen.
  rewrite MarshalCBOR_prefix, <- app_assoc.
  rewrite UnmarshalCBOR_prefix by assumption.
  rewrite CborReadHeader_bool. cbv zeta.
  change (negb (MajOther =? MajOther)) with false. cbv iota.
  destruct (Committed t); reflexivity.
Qed.

(** The element loop never reports an oversized array. *)
Lemma readDealIDs_not_too_large n : forall i ids br ids' extra,
  readDealIDs n i ids br <> (ids', Err (ErrArrayTooLarge extra)).
Proof.
  induction n as [|n IH]; intros i ids br ids' extra; cbn [readDealIDs].
  - congruence.
  - destruct (CborReadHeader br) as [[[maj val] br']|e]; [|congruence].
    destruct (maj =? MajUnsignedInt); [apply IH | congruence].
Qed.

End sector_facts.

Section sector_rejections.

Import cbg sector.
Local Open Scope Z_scope.

(** The element loop on a slice of which only a part was written: it reads
    the [vs] that are there and goes on with the [k] elements left. *)
Lemma readDealIDs_encode_part vs : forall k done rest,
  Forall is_uint64 vs ->
  readDealIDs (length vs + k) (length done)
    (done ++ replicate (length vs + k) 0)
    (flat_map (fun v => CborWriteHeader MajUnsignedInt v) vs ++ rest)
  = readDealIDs k (length done + length vs)
      ((done ++ vs) ++ replicate k 0) rest.
Proof.
  induction vs as [|v vs IH]; intros k done rest Hvs.
  - cbn [length flat_map app Nat.add]. now rewrite Nat.add_0_r, app_nil_r.
  - inversion Hvs as [|? ? Hv Hvs']; subst.
    cbn [length flat_map readDealIDs replicate Nat.add].
    unfold CborWriteHeader at 1. rewrite <- app_assoc.
    rewrite CborReadHeader_encode by (unfold MajUnsignedInt, is_uint64 in *; lia).
    change (MajUnsignedInt =? MajUnsignedInt) with true. cbv iota.
    rewrite insert_app_r_alt by lia. rewrite Nat.sub_diag. cbn [insert list_insert].
    specialize (IH k (done ++ [v]) rest Hvs').
    rewrite length_app, <- !app_assoc in IH. cbn [length app] in IH.
    replace (length done + 1)%nat with (S (length done)) in IH by lia.
    rewrite IH. rewrite <- !app_assoc. cbn [app].
    f_equal. lia.
Qed.

(** The first header must be an array. *)
Lemma UnmarshalCBOR_not_array t r maj extra br :
  CborReadHeader r = Ok (maj, extra, br) -> maj <> MajArray ->
  UnmarshalCBOR t r = (t, Err ErrNotArray).
Proof.
  intros H Hm. unfold UnmarshalCBOR. rewrite H.
  destruct (Z.eqb_spec maj MajArray); [contradiction | reflexivity].
Qed.

(** The top-level array must have three fields. *)
Lemma UnmarshalCBOR_field_count t r extra br :
  CborReadHeader r = Ok (MajArray, extra, br) -> extra <> 3 ->
  UnmarshalCBOR t r = (t, Err ErrWrongFieldCount).
Proof.
  intros H Hm. unfold UnmarshalCBOR. rewrite H.
  change (negb (MajArray =? MajArray)) with false. cbv iota.
  destruct (Z.eqb_spec extra 3); [contradiction | reflexivity].
Qed.

(** The bound on [t.DealIDs] is checked before the major type. *)
Lemma UnmarshalCBOR_too_large t r br1 maj extra br2 :
  CborReadHeader r = Ok (MajArray, 3, br1) ->
  CborReadHeader br1 = Ok (maj, extra, br2) -> 8192 < extra ->
  UnmarshalCBOR t r = (t, Err (ErrArrayTooLarge extra)).
Proof.
  intros H1 H2 Hgt. unfold UnmarshalCBOR. rewrite H1.
  change (negb (MajArray =? MajArray)) with false.
  change (negb (3 =? 3)) with false. cbv iota. rewrite H2.
  destruct (Z.gtb_spec extra 8192); [reflexivity | lia].
Qed.

Lemma UnmarshalCBOR_within_bound t r br1 maj extra br2 t' e :
  CborReadHeader r = Ok (MajArray, 3, br1) ->
  CborReadHeader br1 = Ok (maj, extra, br2) -> extra <= 8192 ->
  UnmarshalCBOR t r <> (t', Err (ErrArrayTooLarge e)).
Proof.
  intros H1 H2 Hle. unfold UnmarshalCBOR. rewrite H1.
  change (negb (MajArray =? MajArray)) with false.
  change (negb (3 =? 3)) with false. cbv iota. rewrite H2.
  destruct (Z.gtb_spec extra 8192); [lia|].
  destruct (negb (maj =? MajArray)); [congruence|].
  match goal with
  | |- context [readDealIDs ?n ?i ?ids ?br] =>
      pose proof (readDealIDs_not_too_large n i ids br) as Hrd;
      destruct (readDealIDs n i ids br) as [ids' [br'|e']]
  end.
  - destruct (CborReadHeader br') as [[[m1 x1] b1]|e1]; [|congruence].
    destruct (negb (m1 =? MajUnsignedInt)); [congruence|].
    destruct (CborReadHeader b1) as [[[m2 x2] b2]|e2]; [|congruence].
    destruct (negb (m2 =? MajOther)); [congruence|].
    destruct (x2 =? 20); [congruence|].
    destruct (x2 =? 21); congruence.
  - intros Heq. inversion Heq; subst. eapply Hrd. reflexivity.
Qed.

Lemma UnmarshalCBOR_expected_array t r br1 maj extra br2 :
  CborReadHeader r = Ok (MajArray, 3, br1) ->
  CborReadHeader br1 = Ok (maj, extra, br2) -> extra <= 8192 ->
  maj <> MajArray ->
  UnmarshalCBOR t r = (t, Err ErrExpectedArray).
Proof.
  intros H1 H2 Hle Hm. unfold UnmarshalCBOR. rewrite H1.
  change (negb (MajArray =? MajArray)) with false.
  change (negb (3 =? 3)) with false. cbv iota. rewrite H2.
  destruct (Z.gtb_spec extra 8192); [lia|].
  destruct (Z.eqb_spec maj MajArray); [contradiction | reflexivity].
Qed.

(** An element of [t.DealIDs] must be an unsigned integer. *)
Lemma UnmarshalCBOR_element_type t vs k tail maj val br :
  Forall is_uint64 vs -> Z.of_nat (length vs + S k) <= 8192 ->
  CborReadHeader tail = Ok (maj, val, br) -> maj <> MajUnsignedInt ->
  snd (UnmarshalCBOR t
         (CborEncodeMajorType MajArray 3
          ++ CborEncodeMajorType MajArray (Z.of_nat (length vs + S k))
          ++ flat_map (fun v => CborWriteHeader MajUnsignedInt v) vs ++ tail))
  = Err (ErrDealIDNotUint maj).
Proof.
  intros Hvs Hlen Htail Hm. unfold UnmarshalCBOR.
  rewrite CborReadHeader_encode by (unfold MajArray; lia).
  change (negb (MajArray =? MajArray)) with false.
  change (negb (3 =? 3)) with false. cbv iota.
  rewrite CborReadHeader_encode by (unfold MajArray; lia).
  change (negb (MajArray =? MajArray)) with false.
  destruct (Z.gtb_spec (Z.of_nat (length vs + S k)) 8192); [lia|]. cbv iota.
  destruct (Z.gtb_spec (Z.of_nat (length vs + S k)) 0); [|lia].
  rewrite Nat2Z.id.
  pose proof (readDealIDs_encode_part vs (S k) [] tail Hvs) as Hrd.
  cbn [length app] in Hrd. rewrite Hrd.
  cbn [readDealIDs]. rewrite Htail.
  destruct (Z.eqb_spec maj MajUnsignedInt); [contradiction | reflexivity].
Qed.

(** [t.Allocated] must be an unsigned integer. *)
Lemma UnmarshalCBOR_allocated_type t ids tail maj val br :
  Forall is_uint64 ids -> Z.of_nat (length ids) <= 8192 ->
  CborReadHeader tail = Ok (maj, val, br) -> maj <> MajUnsignedInt ->
  snd (UnmarshalCBOR t
         (CborEncodeMajorType MajArray 3
          ++ CborEncodeMajorType MajArray (Z.of_nat (length ids))
          ++ flat_map (fun v => CborWriteHeader MajUnsignedInt v) ids ++ tail))
  = Err ErrWrongTypeUint64.
Proof.
  intros Hvs Hlen Htail Hm. unfold UnmarshalCBOR.
  rewrite CborReadHeader_encode by (unfold MajArray; lia).
  change (negb (MajArray =? MajArray)) with false.
  change (negb (3 =? 3)) with false. cbv iota.
  rewrite CborReadHeader_encode by (unfold MajArray; lia).
  change (negb (MajArray =? MajArray)) with false.
  destruct (Z.gtb_spec (Z.of_nat (length ids)) 8192); [lia|]. cbv iota.
  rewrite Nat2Z.id.
  pose proof (readDealIDs_encode_part ids 0 [] tail Hvs) as Hrd.
  rewrite Nat.add_0_r in Hrd. cbn [readDealIDs app length] in Hrd.
  destruct ids as [|v vs].
  - cbn [length readDealIDs flat_map app]. rewrite Htail.
    destruct (Z.eqb_spec maj MajUnsignedInt); [contradiction | reflexivity].
  - destruct (Z.gtb_spec (Z.of_nat (length (v :: vs))) 0);
      [|cbn [length] in *; lia].
    rewrite Hrd. rewrite Htail.
    destruct (Z.eqb_spec maj MajUnsignedInt); [contradiction | reflexivity].
Qed.

(** [t.Committed] must be of major type 7 ... *)
Lemma UnmarshalCBOR_bool_major t ids alloc tail maj extra br :
  Forall is_uint64 ids -> Z.of_nat (length ids) <= 8192 -> is_uint64 alloc ->
  CborReadHeader tail = Ok (maj, extra, br) -> maj <> MajOther ->
  snd (UnmarshalCBOR t (fields_prefix ids alloc ++ tail)) = Err ErrBoolMajor.
Proof.
  intros Hids Hlen Halloc Htail Hm.
  rewrite UnmarshalCBOR_prefix by assumption. cbv zeta. rewrite Htail.
  destruct (Z.eqb_spec maj MajOther); [contradiction | reflexivity].
Qed.

(** ... with value 20 or 21. *)
Lemma UnmarshalCBOR_bool_value t ids alloc tail extra br :
  Forall is_uint64 ids -> Z.of_nat (length ids) <= 8192 -> is_uint64 alloc ->
  CborReadHeader tail = Ok (MajOther, extra, br) ->
  extra <> 20 -> extra <> 21 ->
  snd (UnmarshalCBOR t (fields_prefix ids alloc ++ tail))
  = Err (ErrBoolValue extra).
Proof.
  intros Hids Hlen Halloc Htail H20 H21.
  rewrite UnmarshalCBOR_prefix by assumption. cbv zeta. rewrite Htail.
  change (negb (MajOther =? MajOther)) with false. cbv iota.
  destruct (Z.eqb_spec extra 20); [contradiction|].
  destruct (Z.eqb_spec extra 21); [contradiction | reflexivity].
Qed.

End sector_rejections.

Section sector_theorems.

Import cbg sector.
Local Open Scope Z_scope.

(** C9: [UnmarshalCBOR] rejects a [t.DealIDs] array whose declared length
    exceeds 8192 with the error "array too large" (whatever the major type
    of that header), never rejects a declared length of at most 8192 as too
    large, and accepts every encoded value of exactly 8192 elements; a
    wrong major type at any of the five headers, a top-level field count
    other than three and a boolean value other than 20 or 21 are each
    rejected with their own error. *)
Theorem UnmarshalCBOR_rejects_malformed :
  (forall t r br1 maj extra br2,
      CborReadHeader r = Ok (MajArray, 3, br1) ->
      CborReadHeader br1 = Ok (maj, extra, br2) -> 8192 < extra ->
      UnmarshalCBOR t r = (t, Err (ErrArrayTooLarge extra)))
  /\ (forall t r br1 maj extra br2 t' e,
      CborReadHeader r = Ok (MajArray, 3, br1) ->
      CborReadHeader br1 = Ok (maj, extra, br2) -> extra <= 8192 ->
      UnmarshalCBOR t r <> (t', Err (ErrArrayTooLarge e)))
  /\ (forall t rest,
      well_formed t -> Z.of_nat (length (DealIDs t)) = 8192 ->
      UnmarshalCBOR zero (MarshalCBOR (Some t) ++ rest) = (t, Ok rest))
  /\ (forall t r maj extra br,
      CborReadHeader r = Ok (maj, extra, br) -> maj <> MajArray ->
      UnmarshalCBOR t r = (t, Err ErrNotArray))
  /\ (forall t r extra br,
      CborReadHeader r = Ok (MajArray, extra, br) -> extra <> 3 ->
      UnmarshalCBOR t r = (t, Err ErrWrongFieldCount))
  /\ (forall t r br1 maj extra br2,
      CborReadHeader r = Ok (MajArray, 3, br1) ->
      CborReadHeader br1 = Ok (maj, extra, br2) -> extra <= 8192 ->
      maj <> MajArray ->
      UnmarshalCBOR t r = (t, Err ErrExpectedArray))
  /\ (forall t vs k tail maj val br,
      Forall is_uint64 vs -> Z.of_nat (length vs + S k) <= 8192 ->
      CborReadHeader tail = Ok (maj, val, br) -> maj <> MajUnsignedInt ->
      snd (UnmarshalCBOR t
             (CborEncodeMajorType MajArray 3
              ++ CborEncodeMajorType MajArray (Z.of_nat (length vs + S k))
              ++ flat_map (fun v => CborWriteHeader MajUnsignedInt v) vs
              ++ tail))
      = Err (ErrDealIDNotUint maj))
  /\ (forall t ids tail maj val br,
      Forall is_uint64 ids -> Z.of_nat (length ids) <= 8192 ->
      CborReadHeader tail = Ok (maj, val, br) -> maj <> MajUnsignedInt ->
      snd (UnmarshalCBOR t
             (CborEncodeMajorType MajArray 3
              ++ CborEncodeMajorType MajArray (Z.of_nat (length ids))
              ++ flat_map (fun v => CborWriteHeader MajUnsignedInt v) ids
              ++ tail))
      = Err ErrWrongTypeUint64)
  /\ (forall t ids alloc tail maj extra br,
      Forall is_uint64 ids -> Z.of_nat (length ids) <= 8192 ->
      is_uint64 alloc ->
      CborReadHeader tail = Ok (maj, extra, br) -> maj <> MajOther ->
      snd (UnmarshalCBOR t (fields_prefix ids alloc ++ tail))
      = Err ErrBoolMajor)
  /\ (forall t ids alloc tail extra br,
      Forall is_uint64 ids -> Z.of_nat (length ids) <= 8192 ->
      is_uint64 alloc ->
      CborReadHeader tail = Ok (MajOther, extra, br) ->
      extra <> 20 -> extra <> 21 ->
      snd (UnmarshalCBOR t (fields_prefix ids alloc ++ tail))
      = Err (ErrBoolValue extra)).
Proof.
  repeat apply conj.
  - apply UnmarshalCBOR_too_large.
  - apply UnmarshalCBOR_within_bound.
  - intros t rest Hwf Hlen.
    rewrite UnmarshalCBOR_MarshalCBOR by (try assumption; lia).
    destruct t as [[|v vs] a c]; [cbn [DealIDs length] in Hlen; lia|].
    reflexivity.
  - apply UnmarshalCBOR_not_array.
  - apply UnmarshalCBOR_field_count.
  - apply UnmarshalCBOR_expected_array.
  - apply UnmarshalCBOR_element_type.
  - apply UnmarshalCBOR_allocated_type.
  - apply UnmarshalCBOR_bool_major.
  - apply UnmarshalCBOR_bool_value.
Qed.

(** C10: the round trip of the codec.  For every well-formed [DealMapping]
    (all integer fields are [uint64]) with at most 8192 deal ids, decoding
    the bytes written by [MarshalCBOR] into a fresh value gives back the
    original and consumes exactly those bytes. *)
Theorem DealMapping_roundtrip (t : DealMapping) (rest : list byte) :
  well_formed t -> Z.of_nat (length (DealIDs t)) <= 8192 ->
  UnmarshalCBOR zero (MarshalCBOR (Some t) ++ rest) = (t, Ok rest).
Proof.
  intros Hwf Hlen. rewrite UnmarshalCBOR_MarshalCBOR by assumption.
  destruct t as [[|v vs] a c]; reflexivity.
Qed.

(** Decoding into a receiver that already holds deal ids: an encoded empty
    slice leaves them in place. *)
Remark UnmarshalCBOR_empty_keeps_slice :
  UnmarshalCBOR (mkDealMapping [5] 0 false)
    (MarshalCBOR (Some (mkDealMapping [] 1 true)))
  = (mkDealMapping [5] 1 true, Ok []).
Proof. reflexivity. Qed.

End sector_theorems.

Section sector_instances.

Import cbg sector.
Local Open Scope Z_scope.

Lemma UnmarshalCBOR_rejects_malformed_witness :
  UnmarshalCBOR zero (map byte_of_Z [131; 153; 32; 1])
    = (zero, Err (ErrArrayTooLarge 8193))
  /\ UnmarshalCBOR zero (map byte_of_Z [131; 153; 32; 0])
    <> (zero, Err (ErrArrayTooLarge 8192))
  /\ UnmarshalCBOR zero
       (MarshalCBOR (Some (mkDealMapping (replicate (Z.to_nat 8192) 7) 1 true))
        ++ [])
    = (mkDealMapping (replicate (Z.to_nat 8192) 7) 1 true, Ok [])
  /\ UnmarshalCBOR zero (map byte_of_Z [3]) = (zero, Err ErrNotArray)
  /\ UnmarshalCBOR zero (map byte_of_Z [130]) = (zero, Err ErrWrongFieldCount)
  /\ UnmarshalCBOR zero (map byte_of_Z [131; 1]) = (zero, Err ErrExpectedArray)
  /\ snd (UnmarshalCBOR zero
            (CborEncodeMajorType MajArray 3
             ++ CborEncodeMajorType MajArray (Z.of_nat (length [1] + 1))
             ++ flat_map (fun v => CborWriteHeader MajUnsignedInt v) [1]
             ++ map byte_of_Z [128]))
    = Err (ErrDealIDNotUint 4)
  /\ snd (UnmarshalCBOR zero
            (CborEncodeMajorType MajArray 3
             ++ CborEncodeMajorType MajArray (Z.of_nat (length [1]))
             ++ flat_map (fun v => CborWriteHeader MajUnsignedInt v) [1]
             ++ map byte_of_Z [245]))
    = Err ErrWrongTypeUint64
  /\ snd (UnmarshalCBOR zero (fields_prefix [1] 2 ++ map byte_of_Z [1]))
    = Err ErrBoolMajor
  /\ snd (UnmarshalCBOR zero (fields_prefix [1] 2 ++ map byte_of_Z [246]))
    = Err (ErrBoolValue 22).
Proof.
  destruct UnmarshalCBOR_rejects_malformed
    as (H1 & H2 & H3 & H4 & H5 & H6 & H7 & H8 & H9 & H10).
  repeat apply conj.
  - apply (H1 zero _ (map byte_of_Z [153; 32; 1]) MajArray 8193 []);
      [reflexivity | reflexivity | lia].
  - apply (H2 zero _ (map byte_of_Z [153; 32; 0]) MajArray 8192 []);
      [reflexivity | reflexivity | lia].
  - apply H3.
    + split; [apply Forall_replicate|]; unfold is_uint64; cbn [Allocated]; lia.
    + cbn [DealIDs]. rewrite length_replicate. lia.
  - apply (H4 zero _ MajUnsignedInt 3 []); [reflexivity | discriminate].
  - apply (H5 zero _ 2 []); [reflexivity | discriminate].
  - apply (H6 zero _ (map byte_of_Z [1]) MajUnsignedInt 1 []);
      [reflexivity | reflexivity | lia | discriminate].
  - apply (H7 zero [1] 0%nat (map byte_of_Z [128]) MajArray 0 []);
      [repeat constructor; unfold is_uint64; lia | cbn; lia
      | reflexivity | discriminate].
  - apply (H8 zero [1] (map byte_of_Z [245]) MajOther 21 []);
      [repeat constructor; unfold is_uint64; lia | cbn; lia
      | reflexivity | discriminate].
  - apply (H9 zero [1] 2 (map byte_of_Z [1]) MajUnsignedInt 1 []);
      [repeat constructor; unfold is_uint64; lia | cbn; lia
      | unfold is_uint64; lia | reflexivity | discriminate].
  - apply (H10 zero [1] 2 (map byte_of_Z [246]) 22 []);
      [repeat constructor; unfold is_uint64; lia | cbn; lia
      | unfold is_uint64; lia | reflexivity | discriminate | discriminate].
Defined.

Lemma DealMapping_roundtrip_witness :
  well_formed (mkDealMapping [1; 300; 2 ^ 64 - 1] 70000 true)
  /\ UnmarshalCBOR zero
       (MarshalCBOR (Some (mkDealMapping [1; 300; 2 ^ 64 - 1] 70000 true))
        ++ [])
     = (mkDealMapping [1; 300; 2 ^ 64 - 1] 70000 true, Ok []).
Proof.
  assert (Hwf : well_formed (mkDealMapping [1; 300; 2 ^ 64 - 1] 70000 true))
    by (split; [repeat constructor|]; unfold is_uint64; cbn [Allocated]; lia).
  split; [exact Hwf|].
  apply (DealMapping_roundtrip _ [] Hwf). cbn. lia.
Defined.

End sector_instances.

(** ** The block-sync client *)

Section shuffle_facts.

Import blocksync.

Lemma prefLen_min (peers : list PeerID) :
  prefLen peers = Nat.min 5 (length peers).
Proof. unfold prefLen. destruct (Nat.ltb_spec (length peers) 5); lia. Qed.

(** Reading the first [n] indices in order gives the first [n] entries. *)
Lemma fmap_lookup_seq {A} (d : A) (l : list A) (n : nat) :
  n <= length l ->
  (fun v => default d (l !! v)) <$> seq 0 n = take n l.
Proof.
  intros Hn. apply list_eq. intros i.
  rewrite list_lookup_fmap.
  destruct (Nat.lt_ge_cases i n) as [Hlt|Hge].
  - rewrite lookup_seq_lt, lookup_take_lt by lia. cbn.
    destruct (lookup_lt_is_Some_2 l i ltac:(lia)) as [x Hx].
    rewrite Hx. reflexivity.
  - rewrite lookup_seq_ge, lookup_take_ge by lia. reflexivity.
Qed.

(** The buffer filled through [perm] when every index is in range. *)
Lemma mapM_lookup_total {A} (d : A) (l : list A) (perm : list nat) :
  Forall (fun v => v < length l) perm ->
  mapM (fun v => l !! v) perm = Some ((fun v => default d (l !! v)) <$> perm).
Proof.
  intros Hall. apply mapM_Some. induction Hall as [|v perm Hv _ IH].
  - constructor.
  - cbn. constructor; [|exact IH].
    destruct (lookup_lt_is_Some_2 l v Hv) as [x Hx]. rewrite Hx. reflexivity.
Qed.

(** The call copies [buf] over the head of [peers]. *)
Lemma shufflePrefix_Some perm (peers buf : list PeerID) :
  Forall2 (fun v y => peers !! v = Some y) perm buf ->
  length buf <= length peers ->
  shufflePrefix perm peers = Some (buf ++ drop (length buf) peers).
Proof.
  intros Hbuf Hlen. unfold shufflePrefix.
  rewrite (mapM_Some_2 _ _ _ Hbuf). cbn. unfold copy.
  now rewrite take_ge by lia.
Qed.

(** Every arrangement of a list is read off it through a permutation of
    its indices. *)
Lemma arrangement_has_perm {A} (l q : list A) :
  q ≡ₚ l ->
  exists perm, perm ≡ₚ seq 0 (length l)
               /\ Forall2 (fun v y => l !! v = Some y) perm q.
Proof.
  intros Hp. apply Permutation_inj in Hp as (Hlen & f & Hinj & Hf).
  exists (map f (seq 0 (length l))). split.
  - apply nat_bijection_Permutation.
    + intros x Hx. apply lookup_lt_is_Some. rewrite <- Hf.
      apply lookup_lt_is_Some. lia.
    + intros x y. apply Hinj.
  - apply Forall2_same_length_lookup_2.
    + rewrite length_map, length_seq. lia.
    + intros i x y Hx Hy.
      change (map f (seq 0 (length l))) with (f <$> seq 0 (length l)) in Hx.
      rewrite list_lookup_fmap in Hx.
      destruct (seq 0 (length l) !! i) as [k|] eqn:Hk; [|discriminate].
      apply lookup_seq in Hk as [-> _]. cbn in Hx. inversion Hx; subst.
      now rewrite <- Hf.
Qed.

(** Reading a duplicate-free list through two index lists gives the same
    buffer only if the index lists are the same. *)
Lemma lookup_buffer_inj {A} (l : list A) (perm1 perm2 : list nat) buf :
  NoDup l ->
  Forall2 (fun v y => l !! v = Some y) perm1 buf ->
  Forall2 (fun v y => l !! v = Some y) perm2 buf ->
  perm1 = perm2.
Proof.
  intros Hnd H1. revert perm2.
  induction H1 as [|v y perm1 buf Hv _ IH]; intros perm2 H2.
  - now inversion H2.
  - inversion H2 as [|w ? perm2' ? Hw H2']; subst.
    f_equal; [eapply NoDup_lookup; eauto | now apply IH].
Qed.

End shuffle_facts.

Section shuffle_theorem.

Import blocksync.

(** C7: [shufflePrefix] rearranges only the first [min(5, len(peers))]
    entries.  For every slice [perm] that [rand.Perm(pref)] can return (a
    permutation of [0 .. pref-1]) the call does not panic, entry [i] of the
    prefix becomes the old entry [perm[i]], so the prefix is a permutation
    of the old prefix; every entry at an index from [pref] on is unchanged,
    and the whole list is a permutation of the input of the same length.
    The draw is that of [rand.Perm]: every arrangement of the old prefix is
    the outcome for some [perm], and for exactly one when the peers are
    distinct, so a uniform [perm] gives a uniform arrangement. *)
Theorem shufflePrefix_spec (peers : list PeerID) :
  (forall perm,
      perm ≡ₚ seq 0 (prefLen peers) ->
      exists out,
        shufflePrefix perm peers = Some out
        /\ prefLen peers = Nat.min 5 (length peers)
        /\ length out = length peers
        /\ (forall i v, perm !! i = Some v -> out !! i = peers !! v)
        /\ take (prefLen peers) out ≡ₚ take (prefLen peers) peers
        /\ (forall i, prefLen peers <= i -> out !! i = peers !! i)
        /\ drop (prefLen peers) out = drop (prefLen peers) peers
        /\ out ≡ₚ peers)
  /\ (forall q,
      q ≡ₚ take (prefLen peers) peers ->
      exists perm,
        perm ≡ₚ seq 0 (prefLen peers)
        /\ shufflePrefix perm peers
           = Some (q ++ drop (prefLen peers) peers))
  /\ (NoDup peers ->
      forall perm1 perm2,
        perm1 ≡ₚ seq 0 (prefLen peers) ->
        perm2 ≡ₚ seq 0 (prefLen peers) ->
        shufflePrefix perm1 peers = shufflePrefix perm2 peers ->
        perm1 = perm2).
Proof.
  pose proof (prefLen_min peers) as Hmin.
  set (n := prefLen peers) in *.
  assert (Hn : n <= length peers) by lia.
  set (d := ""%string : PeerID).
  set (g := fun v => default d (peers !! v)).
  assert (Hrun : forall perm, perm ≡ₚ seq 0 n ->
            Forall2 (fun v y => peers !! v = Some y) perm (g <$> perm)
            /\ length (g <$> perm) = n
            /\ shufflePrefix perm peers = Some ((g <$> perm) ++ drop n peers)).
  { intros perm Hperm.
    assert (Hlen : length (g <$> perm) = n)
      by (rewrite length_fmap, (Permutation_length Hperm); apply length_seq).
    assert (Hall : Forall (fun v => v < length peers) perm).
    { apply Forall_forall. intros v Hv. rewrite Hperm in Hv.
      apply elem_of_seq in Hv. lia. }
    assert (Hbuf : Forall2 (fun v y => peers !! v = Some y) perm (g <$> perm)).
    { apply mapM_Some_1. apply (mapM_lookup_total d peers perm Hall). }
    split; [exact Hbuf|]. split; [exact Hlen|].
    rewrite (shufflePrefix_Some perm peers _ Hbuf) by lia.
    now rewrite Hlen. }
  split; [|split].
  - intros perm Hperm.
    destruct (Hrun perm Hperm) as (Hall & Hbuflen & Hout).
    set (buf := g <$> perm) in *.
    assert (Hbuf : buf ≡ₚ take n peers).
    { unfold buf. rewrite Hperm. unfold g. now rewrite fmap_lookup_seq. }
    exists (buf ++ drop n peers).
    split; [exact Hout|]. split; [exact Hmin|].
    split; [rewrite length_app, length_drop; lia|].
    split.
    { intros i v Hi.
      destruct (Forall2_lookup_l _ _ _ _ _ Hall Hi) as (y & Hy & Hv).
      rewrite lookup_app_l by (eapply lookup_lt_Some; eauto).
      now rewrite Hy, Hv. }
    split; [rewrite take_app_length' by lia; exact Hbuf|].
    split.
    { intros i Hi. rewrite lookup_app_r by lia. rewrite lookup_drop.
      f_equal. lia. }
    split; [rewrite drop_app_length' by lia; reflexivity|].
    rewrite Hbuf. now rewrite take_drop.
  - intros q Hq.
    destruct (arrangement_has_perm _ _ Hq) as (perm & Hperm & Hall).
    rewrite length_take, Nat.min_l in Hperm by lia.
    assert (Hqlen : length q = n)
      by (rewrite (Permutation_length Hq), length_take; lia).
    exists perm. split; [exact Hperm|].
    rewrite (shufflePrefix_Some perm peers q); [now rewrite Hqlen| |lia].
    eapply Forall2_impl; [exact Hall|]. cbv beta.
    intros v y Hv. now apply lookup_take_Some in Hv as [Hv _].
  - intros Hnd perm1 perm2 H1 H2 Heq.
    destruct (Hrun perm1 H1) as (Hall1 & Hlen1 & Hout1).
    destruct (Hrun perm2 H2) as (Hall2 & Hlen2 & Hout2).
    rewrite Hout1, Hout2 in Heq. inversion Heq as [Happ].
    apply app_inj_1 in Happ as [Hbuf _]; [|lia].
    rewrite Hbuf in Hall1.
    exact (lookup_buffer_inj peers perm1 perm2 _ Hnd Hall1 Hall2).
Qed.

Lemma shufflePrefix_spec_witness :
  (exists out,
      shufflePrefix [4; 2; 0; 1; 3] ["A"; "B"; "C"; "D"; "E"; "F"; "G"]%string
        = Some out
      /\ out = ["E"; "C"; "A"; "B"; "D"; "F"; "G"]%string)
  /\ (exists perm,
      perm ≡ₚ seq 0 (prefLen ["A"; "B"; "C"; "D"; "E"; "F"; "G"]%string)
      /\ shufflePrefix perm ["A"; "B"; "C"; "D"; "E"; "F"; "G"]%string
         = Some (["B"; "A"; "E"; "D"; "C"]%string
                 ++ drop (prefLen ["A"; "B"; "C"; "D"; "E"; "F"; "G"]%string)
                      ["A"; "B"; "C"; "D"; "E"; "F"; "G"]%string))
  /\ [4; 2; 0; 1; 3] = [4; 2; 0; 1; 3].
Proof.
  destruct (shufflePrefix_spec ["A"; "B"; "C"; "D"; "E"; "F"; "G"]%string)
    as (Hrun & Hall & Hinj).
  assert (Hperm : [4; 2; 0; 1; 3]
                  ≡ₚ seq 0 (prefLen ["A"; "B"; "C"; "D"; "E"; "F"; "G"]%string))
    by (apply (bool_decide_unpack _); vm_compute; exact I).
  split; [|split].
  - destruct (Hrun [4; 2; 0; 1; 3] Hperm) as (out & Hout & _).
    exists out. split; [exact Hout|].
    cbv in Hout. injection Hout as <-. reflexivity.
  - apply Hall. apply (bool_decide_unpack _). vm_compute. exact I.
  - apply Hinj; [|exact Hperm|exact Hperm|reflexivity].
    apply (bool_decide_unpack _). vm_compute. exact I.
Defined.

End shuffle_theorem.

Section validator_facts.

Import blocksync.

(** What the loop returns on success: [out] extended by the tipsets built
    from the rest of the chain, each linked to the one before. *)
Lemma processBlocksResponse_loop_ok chain : forall bi cur out out',
  processBlocksResponse_loop bi cur out chain = Ok out' ->
  exists tss, Forall2 builds chain tss
              /\ out' = out ++ tss /\ linked_from cur tss.
Proof.
  induction chain as [|next chain IH]; intros bi cur out out' Hrun;
    cbn [processBlocksResponse_loop] in Hrun.
  - inversion Hrun; subst. exists []. rewrite app_nil_r. repeat split.
    constructor.
  - destruct (NewTipSet (Blocks next)) as [nts|e] eqn:Hnts; [|discriminate].
    destruct (CidArrsEqual (Parents cur) (Cids nts)) eqn:Heq;
      cbn [negb] in Hrun; [|discriminate].
    apply IH in Hrun as (tss & Hb & -> & Hl).
    exists (nts :: tss). split; [constructor; assumption|].
    split; [now rewrite <- app_assoc|].
    cbn. split; [|exact Hl].
    unfold CidArrsEqual in Heq. now apply bool_decide_eq_true in Heq.
Qed.

Lemma linked_from_lookup tss : forall cur i t1 t2,
  linked_from cur tss ->
  (cur :: tss) !! i = Some t1 -> (cur :: tss) !! S i = Some t2 ->
  Parents t1 = Cids t2.
Proof.
  induction tss as [|t tss IH]; intros cur i t1 t2 Hl H1 H2.
  - destruct i; cbn in H2; discriminate.
  - destruct Hl as [Hp Hl]. destruct i as [|i].
    + cbn in H1, H2. inversion H1; inversion H2; subst. exact Hp.
    + eapply (IH t i); eauto.
Qed.

(** The loop stops at the first pair that is not linked and names it. *)
Lemma processBlocksResponse_loop_mismatch pre tspre :
  Forall2 builds pre tspre ->
  forall bi cur out b post t1 t2,
    linked_from cur tspre -> last (cur :: tspre) = Some t1 ->
    NewTipSet (Blocks b) = Ok t2 -> Parents t1 <> Cids t2 ->
    processBlocksResponse_loop bi cur out (pre ++ b :: post)
    = Err (ErrBadLinkage (bi + length pre - 1) (bi + length pre)).
Proof.
  induction 1 as [|p t pre tspre Hp _ IH];
    intros bi cur out b post t1 t2 Hl Hlast Hb Hne.
  - cbn in Hlast. inversion Hlast; subst.
    cbn [app processBlocksResponse_loop length]. rewrite Hb.
    unfold CidArrsEqual. rewrite bool_decide_eq_false_2 by exact Hne.
    cbn [negb]. now rewrite Nat.add_0_r.
  - destruct Hl as [Hpar Hl].
    cbn [app processBlocksResponse_loop length]. rewrite Hp.
    unfold CidArrsEqual at 1. rewrite bool_decide_eq_true_2 by exact Hpar.
    cbn [negb].
    rewrite (IH (S bi) t (out ++ [t]) b post t1 t2 Hl) by assumption.
    f_equal. f_equal; lia.
Qed.

Lemma processBlocksResponse_ok req res out :
  processBlocksResponse req res = Ok out ->
  Forall2 builds (Chain res) out
  /\ forall i t1 t2, out !! i = Some t1 -> out !! S i = Some t2 ->
                     Parents t1 = Cids t2.
Proof.
  unfold processBlocksResponse. intros Hrun.
  destruct (Chain res) as [|first chain]; [discriminate|].
  destruct (NewTipSet (Blocks first)) as [cur|e] eqn:Hcur; [|discriminate].
  apply processBlocksResponse_loop_ok in Hrun as (tss & Hb & -> & Hl).
  split; [constructor; assumption|].
  intros i t1 t2. apply linked_from_lookup. exact Hl.
Qed.

End validator_facts.

Section validator_theorem.

Import blocksync.

(** C2: every response accepted by [processBlocksResponse] yields one
    tipset per chain element, built from that element, and each adjacent
    pair satisfies [result[i].parents.cids == result[i+1].cids] as ordered
    sequences.  When the first pair that is not linked is the pair of
    indices [(j, j+1)], the call fails with the error naming that pair;
    whenever any adjacent pair of the chain builds two tipsets that are not
    linked, the call returns an error and no tipsets. *)
Theorem processBlocksResponse_linkage :
  (forall req res out,
      processBlocksResponse req res = Ok out ->
      Forall2 builds (Chain res) out
      /\ forall i t1 t2, out !! i = Some t1 -> out !! S i = Some t2 ->
                         Parents t1 = Cids t2)
  /\ (forall req res first pre b post t0 tspre t1 t2,
      Chain res = first :: pre ++ b :: post ->
      NewTipSet (Blocks first) = Ok t0 ->
      Forall2 builds pre tspre ->
      linked_from t0 tspre ->
      last (t0 :: tspre) = Some t1 ->
      NewTipSet (Blocks b) = Ok t2 ->
      Parents t1 <> Cids t2 ->
      processBlocksResponse req res
      = Err (ErrBadLinkage (length pre) (S (length pre)))
      /\ Error_string (ErrBadLinkage (length pre) (S (length pre)))
         = ("parents of tipset[" +:+ pretty (length pre)
            +:+ "] were not tipset[" +:+ pretty (S (length pre)) +:+ "]")%string)
  /\ (forall req res i b1 b2 t1 t2,
      Chain res !! i = Some b1 -> Chain res !! S i = Some b2 ->
      NewTipSet (Blocks b1) = Ok t1 -> NewTipSet (Blocks b2) = Ok t2 ->
      Parents t1 <> Cids t2 ->
      exists e, processBlocksResponse req res = Err e).
Proof.
  split; [exact processBlocksResponse_ok|]. split.
  - intros req res first pre b post t0 tspre t1 t2 Hc H0 Hpre Hl Hlast Hb Hne.
    split; [|reflexivity].
    unfold processBlocksResponse. rewrite Hc, H0.
    rewrite (processBlocksResponse_loop_mismatch pre tspre Hpre 1 t0 [t0]
               b post t1 t2 Hl Hlast Hb Hne).
    f_equal. f_equal; lia.
  - intros req res i b1 b2 t1 t2 H1 H2 Hb1 Hb2 Hne.
    destruct (processBlocksResponse req res) as [out|e] eqn:Hrun;
      [|eexists; reflexivity].
    exfalso. apply processBlocksResponse_ok in Hrun as [Hall Hlink].
    destruct (Forall2_lookup_l _ _ _ _ _ Hall H1) as (u1 & Hu1 & Hbu1).
    destruct (Forall2_lookup_l _ _ _ _ _ Hall H2) as (u2 & Hu2 & Hbu2).
    unfold builds in Hbu1, Hbu2.
    rewrite Hb1 in Hbu1. rewrite Hb2 in Hbu2.
    inversion Hbu1; inversion Hbu2; subst.
    apply Hne. eapply Hlink; eauto.
Qed.

Lemma processBlocksResponse_linkage_witness :
  (exists out,
      processBlocksResponse (mkBlockSyncRequest ["cid-1"]%string 2 BSOptBlocks)
        scenario.resp_two = Ok out
      /\ forall i t1 t2, out !! i = Some t1 -> out !! S i = Some t2 ->
                         Parents t1 = Cids t2)
  /\ processBlocksResponse (mkBlockSyncRequest ["cid-1"]%string 2 BSOptBlocks)
       scenario.resp_unlinked
     = Err (Errorf "parents of tipset[0] were not tipset[1]")
  /\ exists e,
      processBlocksResponse (mkBlockSyncRequest ["cid-1"]%string 2 BSOptBlocks)
        scenario.resp_unlinked = Err e.
Proof.
  destruct processBlocksResponse_linkage as (Hok & Hbad & Hany).
  split; [|split].
  - eexists. split; [reflexivity|].
    exact (proj2 (Hok (mkBlockSyncRequest ["cid-1"]%string 2 BSOptBlocks)
                    scenario.resp_two _ eq_refl)).
  - refine (proj1 (Hbad _ scenario.resp_unlinked (scenario.wire scenario.hdr1)
                     [] (scenario.wire scenario.hdr9) []
                     (scenario.tipset_of scenario.hdr1) []
                     (scenario.tipset_of scenario.hdr1)
                     (scenario.tipset_of scenario.hdr9)
                     eq_refl eq_refl (List.Forall2_nil _) I eq_refl eq_refl _)).
    discriminate.
  - refine (Hany _ scenario.resp_unlinked 0%nat
              (scenario.wire scenario.hdr1) (scenario.wire scenario.hdr9)
              (scenario.tipset_of scenario.hdr1)
              (scenario.tipset_of scenario.hdr9)
              eq_refl eq_refl eq_refl eq_refl _).
    discriminate.
Defined.

End validator_theorem.

Section transport_theorem.

Import blocksync.

(** C8: one call of [fetchBlocksBlockSync] asks the host for one stream and
    makes exactly one report to the peer tracker, about the peer of the
    call: a stream that does not open removes the peer, a failed write or a
    failed read logs a failure, and a decoded response logs a success.  The
    call returns an error exactly in the first three cases. *)
Theorem fetchBlocksBlockSync_reports_once
    (h : Host) (ctx : Context) (peer : PeerID) (req : BlockSyncRequest)
    (tr : list Event) :
  exists report r,
    fetchBlocksBlockSync h ctx peer req tr
      = (r, tr ++ [EvNewStream peer; report])
    /\ filter (fun e => is_tracker_report e = true)
         [EvNewStream peer; report] = [report]
    /\ (forall err, NewStream h (ctx (length tr)) peer = Some err ->
          report = EvRemovePeer peer
          /\ r = Err (Wrapf "failed to open stream to peer: " err))
    /\ (forall err, NewStream h (ctx (length tr)) peer = None ->
          WriteCborRPC h peer req = Some err ->
          report = EvLogFailure peer /\ r = Err err)
    /\ (forall err, NewStream h (ctx (length tr)) peer = None ->
          WriteCborRPC h peer req = None ->
          ReadCborRPC h peer req = Err err ->
          report = EvLogFailure peer /\ r = Err err)
    /\ (forall res, NewStream h (ctx (length tr)) peer = None ->
          WriteCborRPC h peer req = None ->
          ReadCborRPC h peer req = Ok res ->
          report = EvLogSuccess peer /\ r = Ok res).
Proof.
  unfold fetchBlocksBlockSync, bind, ctx_Done, emit, ret.
  destruct (NewStream h (ctx (length tr)) peer) as [e1|] eqn:H1.
  { exists (EvRemovePeer peer). eexists. rewrite <- app_assoc.
    split; [reflexivity|]. split; [reflexivity|].
    repeat split; intros; congruence. }
  destruct (WriteCborRPC h peer req) as [e2|] eqn:H2.
  { exists (EvLogFailure peer). eexists. rewrite <- app_assoc.
    split; [reflexivity|]. split; [reflexivity|].
    repeat split; intros; congruence. }
  destruct (ReadCborRPC h peer req) as [res|e3] eqn:H3.
  - exists (EvLogSuccess peer). eexists. rewrite <- app_assoc.
    split; [reflexivity|]. split; [reflexivity|].
    repeat split; intros; congruence.
  - exists (EvLogFailure peer). eexists. rewrite <- app_assoc.
    split; [reflexivity|]. split; [reflexivity|].
    repeat split; intros; congruence.
Qed.

Lemma fetchBlocksBlockSync_reports_once_witness :
  fetchBlocksBlockSync scenario.host_failing scenario.never_done "A"
    (mkBlockSyncRequest ["cid-1"]%string 2 BSOptBlocks) []
  = (Err (Wrapf "failed to open stream to peer: "
            (Errorf "no usable connection to peer")),
     [EvNewStream "A"; EvRemovePeer "A"]).
Proof.
  destruct (fetchBlocksBlockSync_reports_once scenario.host_failing
              scenario.never_done "A"
              (mkBlockSyncRequest ["cid-1"]%string 2 BSOptBlocks) [])
    as (report & r & Hrun & _ & Hopen & _).
  destruct (Hopen (Errorf "no usable connection to peer") eq_refl)
    as [-> ->].
  exact Hrun.
Defined.

End transport_theorem.

Section engine_facts.

Import blocksync.
Local Open Scope Z_scope.

Lemma wrap_inj msg o1 o2 : wrap msg o1 = wrap msg o2 -> o1 = o2.
Proof. destruct o1, o2; cbn; congruence. Qed.

(** Running the loop of [GetBlocks] on [pre] alone ends with "failed with
    all peers" exactly when every peer of [pre] was tried without success;
    the loop on [pre ++ l] then goes on with [l] from the state reached. *)
Lemma GetBlocks_loop_app h ctx req pre : forall l oerr tr oerr1 tr1,
  GetBlocks_loop h ctx req pre oerr tr = (Err (ErrAllPeersFailed oerr1), tr1) ->
  GetBlocks_loop h ctx req (pre ++ l) oerr tr
  = GetBlocks_loop h ctx req l oerr1 tr1.
Proof.
  induction pre as [|p pre IH]; intros l oerr tr oerr1 tr1 Hrun.
  - cbn in Hrun. unfold ret in Hrun. inversion Hrun as [[Hw Ht]].
    apply wrap_inj in Hw. now subst.
  - cbn [app GetBlocks_loop] in *. unfold bind, ctx_Done in *.
    destruct (ctx (length tr)).
    { unfold ret, ErrAllPeersFailed, wrap in Hrun.
      destruct oerr1; discriminate. }
    destruct (sendRequestToPeer h ctx p req tr) as [[res|err] tr'].
    + destruct ((Status res =? StatusOK) || (Status res =? StatusPartial)).
      * destruct (processBlocksResponse req res);
          unfold ret, emit, ErrAllPeersFailed, wrap in Hrun;
          destruct oerr1; discriminate.
      * apply IH. exact Hrun.
    + apply IH. exact Hrun.
Qed.


End engine_facts.

Section engine_theorems.

Import blocksync.
Local Open Scope Z_scope.

(** C1: [GetBlocks] returns what [processBlocksResponse] builds from the
    response and never compares it with the request.  Asked for one tipset
    from the key [cid-zz], with a peer that answers a well-linked chain of
    two tipsets starting at [cid-1], it returns both tipsets. *)
Theorem GetBlocks_ignores_request :
  exists out tr,
    GetBlocks (scenario.host_of (fun _ => scenario.resp_two))
      ["A"]%string [0%nat] scenario.never_done ["cid-zz"]%string 1 []
    = (Ok out, tr)
    /\ length out = 2%nat
    /\ (Key <$> head out) = Some ["cid-1"]%string.
Proof. do 2 eexists. split; [reflexivity|]. split; reflexivity. Qed.

(** C5, as stated, fails: the error of [processBlocksResponse] reaches the
    caller of [GetBlocks] wrapped, so the error returned is not the error
    "got no blocks in successful blocksync response" itself and its message
    is longer. *)
Lemma GetBlocks_empty_chain_error_not_exact :
  exists e tr,
    GetBlocks (scenario.host_of (fun _ => scenario.resp_empty))
      ["A"]%string [0%nat] scenario.never_done ["cid-1"]%string 1 []
    = (Err e, tr)
    /\ e <> ErrNoBlocks
    /\ Error_string e
       <> "got no blocks in successful blocksync response"%string.
Proof.
  do 2 eexists. split; [reflexivity|]. split; discriminate.
Qed.

(** C5, amended: when the peers tried before [p] have all failed, the
    context is not done, and [p] answers with status OK and an empty chain,
    [GetBlocks] returns no tipsets and the error "got no blocks in
    successful blocksync response" wrapped under "success response from
    peer failed to process: "; no later peer is tried. *)
Theorem GetBlocks_empty_chain
    (h : Host) (peers : list PeerID) (perm : list nat) (ctx : Context)
    (tsk : TipSetKey) (count : Z) (tr : list Event)
    (pre : list PeerID) (p : PeerID) (post : list PeerID)
    (oerr : option Error) (tr1 : list Event)
    (res : BlockSyncResponse) (tr2 : list Event) :
  let req := mkBlockSyncRequest tsk (count mod 2 ^ 64) BSOptBlocks in
  shufflePrefix perm peers = Some (pre ++ p :: post) ->
  GetBlocks_loop h ctx req pre None tr = (Err (ErrAllPeersFailed oerr), tr1) ->
  ctx (length tr1) = false ->
  sendRequestToPeer h ctx p req tr1 = (Ok res, tr2) ->
  Status res = StatusOK -> Chain res = [] ->
  GetBlocks h peers perm ctx tsk count tr
  = (Err (Wrapf "success response from peer failed to process: " ErrNoBlocks),
     tr2)
  /\ Unwrap (Wrapf "success response from peer failed to process: " ErrNoBlocks)
     = Some ErrNoBlocks
  /\ Error_string
       (Wrapf "success response from peer failed to process: " ErrNoBlocks)
     = "success response from peer failed to process: got no blocks in successful blocksync response"%string.
Proof.
  intros req Hsh Hpre Hctx Hsend Hst Hch.
  split; [|split; reflexivity].
  unfold GetBlocks. fold req. rewrite Hsh.
  rewrite (GetBlocks_loop_app _ _ _ _ _ _ _ _ _ Hpre).
  cbn [GetBlocks_loop]. unfold bind, ctx_Done. rewrite Hctx, Hsend.
  rewrite Hst. cbn [Z.eqb StatusOK orb].
  unfold processBlocksResponse. rewrite Hch. reflexivity.
Qed.

Lemma GetBlocks_empty_chain_witness :
  GetBlocks (scenario.host_of (scenario.answer_after_B scenario.resp_empty))
    ["B"; "A"; "C"]%string [0; 1; 2]%nat scenario.never_done
    ["cid-1"]%string 1 []
  = (Err (Wrapf "success response from peer failed to process: " ErrNoBlocks),
     [EvNewStream "B"; EvLogSuccess "B"; EvNewStream "A"; EvLogSuccess "A"]).
Proof.
  refine (proj1 (GetBlocks_empty_chain
            (scenario.host_of (scenario.answer_after_B scenario.resp_empty))
            ["B"; "A"; "C"]%string [0; 1; 2]%nat scenario.never_done
            ["cid-1"]%string 1 [] ["B"]%string "A"%string ["C"]%string
            (Some (Errorf "not found"))
            [EvNewStream "B"; EvLogSuccess "B"] scenario.resp_empty
            [EvNewStream "B"; EvLogSuccess "B"; EvNewStream "A";
             EvLogSuccess "A"]
            eq_refl eq_refl eq_refl eq_refl eq_refl eq_refl)).
Defined.

(** C4: the peer loop of [GetChainMessages] has no cancellation check, and
    [fetchCids] does not use its context.  With the context done from the
    start, [GetChainMessages] still asks the host for a stream to every
    peer in turn, has every peer whose stream does not open removed from
    the tracker, and returns "failed with all peers"; [fetchCids] still
    consumes the blocks of the stream.  [GetBlocks] on the same input
    returns the cancellation error without any call. *)
Theorem GetChainMessages_ignores_cancellation :
  GetChainMessages (scenario.host_of (fun _ => scenario.resp_two))
    ["A"; "B"]%string [0; 1]%nat scenario.cancelled
    (scenario.tipset_of scenario.hdr1) 2 []
  = (Err (Wrapf "GetChainMessages failed with all peers(2): "
            (Wrapf "blocksync req failed: "
               (Wrapf "failed to open stream to peer: " Canceled))),
     [EvNewStream "A"; EvRemovePeer "A"; EvNewStream "B"; EvRemovePeer "B"])
  /\ fetchCids (place scenario.decode_raw) scenario.cancelled
       ["cid-X"; "cid-Y"]%string [scenario.blockY; scenario.blockX]
       [None; None]
     = Ok [Some (RawData scenario.blockX); Some (RawData scenario.blockY)]
  /\ GetBlocks (scenario.host_of (fun _ => scenario.resp_two))
       ["A"; "B"]%string [0; 1]%nat scenario.cancelled ["cid-1"]%string 2 []
     = (Err (Wrapf "blocksync getblocks failed: " Canceled), []).
Proof. repeat split; reflexivity. Qed.

End engine_theorems.

Section fetch_theorems.

Import blocksync.

(** C3: when the channel is closed at the last iteration, [fetchCids]
    leaves the [select] and returns nil although an index was never
    filled.  Two cids are requested, the stream delivers the block of the
    first and closes: the call succeeds with the second slot empty.  With
    one cid requested and nothing delivered it succeeds as well. *)
Theorem fetchCids_succeeds_on_early_close :
  fetchCids (place scenario.decode_raw) scenario.never_done
    ["cid-X"; "cid-Y"]%string [scenario.blockX] [None; None]
  = Ok [Some (RawData scenario.blockX); None]
  /\ fetchCids (place scenario.decode_raw) scenario.never_done
       ["cid-X"]%string [] [None]
     = Ok [None]
  /\ fetchCids (place scenario.decode_raw) scenario.never_done
       ["cid-X"; "cid-Y"]%string [] [None; None]
     = Err ErrFetchAll.
Proof. repeat split; reflexivity. Qed.

(** C6: on the same stream the two fetchers return a list of [len(cids)]
    slots of which one is the nil pointer, not a decoded message. *)
Theorem FetchMessagesByCids_returns_nil_slot :
  FetchMessagesByCids scenario.decode_raw scenario.never_done
    ["cid-X"; "cid-Y"]%string [scenario.blockX]
  = Ok [Some (RawData scenario.blockX); None]
  /\ FetchSignedMessagesByCids scenario.decode_raw scenario.never_done
       ["cid-X"; "cid-Y"]%string [scenario.blockX]
     = Ok [Some (RawData scenario.blockX); None]
  /\ FetchMessagesByCids scenario.decode_raw scenario.never_done
       ["cid-X"]%string []
     = Ok [None].
Proof. repeat split; reflexivity. Qed.

End fetch_theorems.

(** ** Further properties of the request engine *)

Section engine_more.

Import blocksync.
Local Open Scope Z_scope.







End engine_more.

(** ** Further properties of the message fetchers *)

Section fetch_index.

Import blocksync.

Lemma build_cidIndex_None cids : forall i (m : gmap Cid nat) c,
  build_cidIndex i cids m !! c = None <-> (c ∉ cids) /\ (m !! c = None).
Proof.
  induction cids as [|c0 cids IH]; intros i m c; cbn [build_cidIndex].
  - split; [intros H; split; [apply not_elem_of_nil | exact H] | tauto].
  - rewrite IH, lookup_insert_None, not_elem_of_cons.
    split; intros; destruct_and?; repeat split; auto.
Qed.

Lemma build_cidIndex_Some cids : forall i (m : gmap Cid nat) c ix,
  build_cidIndex i cids m !! c = Some ix ->
  (exists j, ix = i + j /\ cids !! j = Some c) \/ m !! c = Some ix.
Proof.
  induction cids as [|c0 cids IH]; intros i m c ix H; cbn [build_cidIndex] in H.
  - now right.
  - apply IH in H as [(j & -> & Hj)|H].
    + left. exists (S j). split; [lia | exact Hj].
    + apply lookup_insert_Some in H as [[-> ->]|[_ H]].
      * left. exists 0. split; [lia | reflexivity].
      * now right.
Qed.

(** The index of a cid is a position at which it was requested. *)
Lemma cidIndex_position cids c ix :
  build_cidIndex 0 cids ∅ !! c = Some ix -> cids !! ix = Some c.
Proof.
  intros H. apply build_cidIndex_Some in H as [(j & -> & Hj)|H].
  - exact Hj.
  - rewrite lookup_empty in H. discriminate.
Qed.

End fetch_index.

Section fetch_loop.

Import blocksync.
Context {S : Type} (cb : nat -> Block -> S -> result Error S).

(** A block read by the loop whose cid is not in the index fails the
    call. *)
Lemma fetchCids_loop_unsolicited len idx n : forall i blocks st k b,
  k < n -> blocks !! k = Some b -> idx !! blk_cid b = None ->
  is_ok (fetchCids_loop cb len idx n i blocks st) = false.
Proof.
  induction n as [|n IH]; intros i blocks st k b Hk Hb Hidx; [lia|].
  destruct blocks as [|b0 rest]; [discriminate|].
  cbn [fetchCids_loop]. destruct k as [|k].
  - cbn in Hb. inversion Hb; subst. now rewrite Hidx.
  - cbn in Hb. destruct (idx !! blk_cid b0); [|reflexivity].
    destruct (cb n0 b0 st); [|reflexivity].
    eapply IH; eauto. lia.
Qed.

(** A channel closed before the last iteration fails the call. *)
Lemma fetchCids_loop_early_close len idx n : forall i blocks st,
  i + n = len -> length blocks < n -> i + length blocks <> len - 1 ->
  is_ok (fetchCids_loop cb len idx n i blocks st) = false.
Proof.
  induction n as [|n IH]; intros i blocks st Hlen Hlt Hne; [lia|].
  cbn [fetchCids_loop]. destruct blocks as [|b0 rest].
  - cbn [length] in Hne. destruct (decide (i = len - 1)); [lia | reflexivity].
  - cbn [length] in Hlt, Hne.
    destruct (idx !! blk_cid b0); [|reflexivity].
    destruct (cb n0 b0 st); [|reflexivity].
    apply IH; lia.
Qed.

End fetch_loop.

Section fetch_place.

Import blocksync.
Context {Msg : Type} (Decode : list byte -> result Error Msg).

Lemma place_ok i b (out out' : list (option Msg)) :
  place Decode i b out = Ok out' ->
  exists m, Decode (RawData b) = Ok m /\ out !! i = Some None
            /\ out' = <[i := Some m]> out.
Proof.
  unfold place. destruct (Decode (RawData b)) as [m|e]; [|discriminate].
  destruct (out !! i) as [[m'|]|]; try discriminate.
  intros H. inversion H. eauto.
Qed.

(** The number of filled slots. *)
Lemma length_omap_le (l : list (option Msg)) :
  length (omap id l) <= length l.
Proof. induction l as [|[m|] l IH]; cbn; lia. Qed.

Lemma omap_replicate_None n : omap id (replicate n (@None Msg)) = [].
Proof. induction n as [|n IH]; [reflexivity | exact IH]. Qed.

Lemma length_omap_insert (l : list (option Msg)) : forall i m,
  l !! i = Some None ->
  length (omap id (<[i := Some m]> l)) = Datatypes.S (length (omap id l)).
Proof.
  induction l as [|o l IH]; intros i m Hi; [discriminate|].
  destruct i as [|i].
  - cbn in Hi. inversion Hi; subst. reflexivity.
  - cbn in Hi. specialize (IH i m Hi).
    destruct o as [m'|]; [cbn; f_equal|]; exact IH.
Qed.

Lemma omap_full (l : list (option Msg)) :
  length (omap id l) = length l ->
  forall i, i < length l -> exists m, l !! i = Some (Some m).
Proof.
  induction l as [|o l IH]; intros Hlen i Hi; [cbn in Hi; lia|].
  destruct o as [m|].
  - cbn in Hlen. destruct i as [|i]; [eauto|].
    apply IH; [lia | cbn in Hi; lia].
  - cbn in Hlen. pose proof (length_omap_le l). lia.
Qed.

(** The loop keeps the length of the slice. *)
Lemma fetchCids_loop_length len idx n : forall i blocks out out',
  fetchCids_loop (place Decode) len idx n i blocks out = Ok out' ->
  length out' = length out.
Proof.
  induction n as [|n IH]; intros i blocks out out' Hrun;
    cbn [fetchCids_loop] in Hrun.
  - now inversion Hrun.
  - destruct blocks as [|b0 rest].
    + destruct (decide (i = len - 1)); [|discriminate]. eauto.
    + destruct (idx !! blk_cid b0) as [ix|]; [|discriminate].
      destruct (place Decode ix b0 out) as [out1|e] eqn:Hp; [|discriminate].
      apply place_ok in Hp as (m & _ & _ & ->).
      rewrite (IH _ _ _ _ Hrun). apply length_insert.
Qed.

(** Once a slot is filled, a later block for the same slot fails the
    call. *)
Lemma fetchCids_loop_filled len idx n : forall i blocks out k b ix m,
  out !! ix = Some (Some m) ->
  k < n -> blocks !! k = Some b -> idx !! blk_cid b = Some ix ->
  is_ok (fetchCids_loop (place Decode) len idx n i blocks out) = false.
Proof.
  induction n as [|n IH]; intros i blocks out k b ix m Hix Hk Hb Hidx; [lia|].
  destruct blocks as [|b0 rest]; [discriminate|].
  cbn [fetchCids_loop]. destruct k as [|k].
  - cbn in Hb. inversion Hb; subst. rewrite Hidx.
    unfold place. destruct (Decode (RawData b)); [|reflexivity].
    now rewrite Hix.
  - cbn in Hb. destruct (idx !! blk_cid b0) as [ix0|]; [|reflexivity].
    destruct (place Decode ix0 b0 out) as [out1|e] eqn:Hp; [|reflexivity].
    apply place_ok in Hp as (m0 & _ & Hnone & ->).
    eapply (IH _ _ _ k b ix m); eauto; [|lia].
    rewrite list_lookup_insert_ne; [exact Hix|]. congruence.
Qed.

(** Two blocks with the same cid among those read fail the call. *)
Lemma fetchCids_loop_duplicate len idx n : forall i blocks out j k b1 b2,
  j < k -> k < n -> blocks !! j = Some b1 -> blocks !! k = Some b2 ->
  blk_cid b1 = blk_cid b2 ->
  is_ok (fetchCids_loop (place Decode) len idx n i blocks out) = false.
Proof.
  induction n as [|n IH]; intros i blocks out j k b1 b2 Hjk Hk H1 H2 Hc; [lia|].
  destruct blocks as [|b0 rest]; [discriminate|].
  cbn [fetchCids_loop]. destruct k as [|k]; [lia|]. cbn in H2.
  destruct (idx !! blk_cid b0) as [ix0|] eqn:Hidx; [|reflexivity].
  destruct (place Decode ix0 b0 out) as [out1|e] eqn:Hp; [|reflexivity].
  apply place_ok in Hp as (m0 & _ & Hnone & ->).
  destruct j as [|j].
  - cbn in H1. inversion H1; subst.
    eapply (fetchCids_loop_filled _ _ _ _ _ _ k b2 ix0 m0); eauto; [|lia|].
    + apply list_lookup_insert_eq. eapply lookup_lt_Some; eauto.
    + now rewrite <- Hc.
  - cbn in H1. eapply (IH _ _ _ j k b1 b2); eauto; lia.
Qed.

(** When the channel stays open through all iterations, every iteration
    fills one more slot, from a block read by the loop. *)
Lemma fetchCids_loop_complete len idx n : forall i blocks out out',
  n <= length blocks ->
  fetchCids_loop (place Decode) len idx n i blocks out = Ok out' ->
  length (omap id out') = length (omap id out) + n
  /\ forall ix m, out' !! ix = Some (Some m) ->
       out !! ix = Some (Some m)
       \/ exists k b, k < n /\ blocks !! k = Some b
                      /\ idx !! blk_cid b = Some ix
                      /\ Decode (RawData b) = Ok m.
Proof.
  induction n as [|n IH]; intros i blocks out out' Hlen Hrun;
    cbn [fetchCids_loop] in Hrun.
  - inversion Hrun; subst. split; [lia | auto].
  - destruct blocks as [|b0 rest]; [cbn in Hlen; lia|].
    destruct (idx !! blk_cid b0) as [ix0|] eqn:Hidx; [|discriminate].
    destruct (place Decode ix0 b0 out) as [out1|e] eqn:Hp; [|discriminate].
    apply place_ok in Hp as (m0 & Hdec & Hnone & ->).
    cbn [length] in Hlen.
    apply IH in Hrun as [Hcnt Hslots]; [|lia].
    rewrite (length_omap_insert _ _ _ Hnone) in Hcnt.
    split; [lia|].
    intros ix m Hix. destruct (Hslots ix m Hix) as [Hold|(k & b & Hk & Hb & Hi & Hd)].
    + apply list_lookup_insert_Some in Hold as [(-> & Hm & _)|[_ Hold]].
      * inversion Hm; subst. right. exists 0, b0.
        repeat split; auto. lia.
      * now left.
    + right. exists (Datatypes.S k), b. repeat split; auto. lia.
Qed.

End fetch_place.

Section fetch_more.

Import blocksync.
Context {Msg : Type} (Decode : list byte -> result Error Msg).

Lemma fetchByCids_is_ok ctx cids blocks :
  is_ok (fetchByCids Decode ctx cids blocks)
  = is_ok (fetchCids (place Decode) ctx cids blocks
             (replicate (length cids) None)).
Proof.
  unfold fetchByCids. now destruct (fetchCids _ _ _ _ _).
Qed.

(** What makes the fetchers fail.  A successful call returns a slice of
    [len(cids)] slots; the call fails when one of the first [len(cids)]
    blocks of the stream has a cid that was not requested, when two of
    them have the same cid, and when the stream closes with more than one
    block missing. *)
Theorem fetchByCids_failures
    (ctx : Context) (cids : list Cid) (blocks : list Block) :
  (forall out, fetchByCids Decode ctx cids blocks = Ok out ->
               length out = length cids)
  /\ (forall k b, k < length cids -> blocks !! k = Some b ->
                  blk_cid b ∉ cids ->
                  is_ok (fetchByCids Decode ctx cids blocks) = false)
  /\ (forall j k b1 b2, j < k -> k < length cids ->
                        blocks !! j = Some b1 -> blocks !! k = Some b2 ->
                        blk_cid b1 = blk_cid b2 ->
                        is_ok (fetchByCids Decode ctx cids blocks) = false)
  /\ (length blocks + 1 < length cids ->
      is_ok (fetchByCids Decode ctx cids blocks) = false).
Proof.
  repeat apply conj.
  - unfold fetchByCids, fetchCids. intros out Hrun.
    destruct (fetchCids_loop _ _ _ _ _ _ _) as [out'|e] eqn:Hloop;
      [|discriminate].
    inversion Hrun; subst.
    rewrite (fetchCids_loop_length _ _ _ _ _ _ _ _ Hloop).
    apply length_replicate.
  - intros k b Hk Hb Hnot. rewrite fetchByCids_is_ok. unfold fetchCids.
    apply (fetchCids_loop_unsolicited _ _ _ _ _ _ _ k b Hk Hb).
    apply build_cidIndex_None. split; [exact Hnot | apply lookup_empty].
  - intros j k b1 b2 Hjk Hk H1 H2 Hc. rewrite fetchByCids_is_ok.
    unfold fetchCids.
    apply (fetchCids_loop_duplicate _ _ _ _ _ _ _ j k b1 b2 Hjk Hk H1 H2 Hc).
  - intros Hshort. rewrite fetchByCids_is_ok. unfold fetchCids.
    apply fetchCids_loop_early_close; lia.
Qed.

(** When the stream delivers at least [len(cids)] blocks, a successful
    call returns, at every index, the decoding of a delivered block whose
    cid is the cid requested at that index. *)
Theorem fetchByCids_complete
    (ctx : Context) (cids : list Cid) (blocks : list Block)
    (out : list (option Msg)) :
  fetchByCids Decode ctx cids blocks = Ok out ->
  length cids <= length blocks ->
  length out = length cids
  /\ forall i c, cids !! i = Some c ->
       exists k b m, k < length cids /\ blocks !! k = Some b
                     /\ blk_cid b = c /\ Decode (RawData b) = Ok m
                     /\ out !! i = Some (Some m).
Proof.
  unfold fetchByCids, fetchCids. intros Hrun Hlen.
  destruct (fetchCids_loop _ _ _ _ _ _ _) as [out'|e] eqn:Hloop;
    [|discriminate].
  inversion Hrun; subst out'.
  pose proof (fetchCids_loop_length _ _ _ _ _ _ _ _ Hloop) as Hl.
  rewrite length_replicate in Hl.
  apply fetchCids_loop_complete in Hloop as [Hcnt Hslots]; [|exact Hlen].
  rewrite omap_replicate_None in Hcnt. cbn [length Nat.add] in Hcnt.
  split; [exact Hl|].
  intros i c Hi.
  assert (Hlt : i < length out) by (rewrite Hl; eapply lookup_lt_Some; eauto).
  destruct (omap_full out ltac:(lia) i Hlt) as [m Hm].
  destruct (Hslots i m Hm) as [Hold|(k & b & Hk & Hb & Hidx & Hd)].
  - apply lookup_replicate_1 in Hold as [Hold _]. discriminate.
  - apply cidIndex_position in Hidx. rewrite Hi in Hidx.
    inversion Hidx; subst. exists k, b, m. repeat split; auto.
Qed.

End fetch_more.

Section fetch_instances.

Import blocksync.

Lemma fetchByCids_failures_witness :
  length [Some (RawData scenario.blockX); Some (RawData scenario.blockY)]
    = length ["cid-X"; "cid-Y"]%string
  /\ is_ok (fetchByCids scenario.decode_raw scenario.never_done
              ["cid-X"]%string [scenario.blockY]) = false
  /\ is_ok (fetchByCids scenario.decode_raw scenario.never_done
              ["cid-X"; "cid-Y"]%string [scenario.blockX; scenario.blockX])
     = false
  /\ is_ok (fetchByCids scenario.decode_raw scenario.never_done
              ["cid-X"; "cid-Y"]%string []) = false.
Proof.
  split; [|split; [|split]].
  - exact (proj1 (fetchByCids_failures scenario.decode_raw
                    scenario.never_done ["cid-X"; "cid-Y"]%string
                    [scenario.blockY; scenario.blockX]) _ eq_refl).
  - refine (proj1 (proj2 (fetchByCids_failures scenario.decode_raw
                    scenario.never_done ["cid-X"]%string [scenario.blockY]))
              0 scenario.blockY _ eq_refl _).
    + cbn. lia.
    + intros H. apply list_elem_of_singleton in H. discriminate.
  - refine (proj1 (proj2 (proj2 (fetchByCids_failures scenario.decode_raw
                    scenario.never_done ["cid-X"; "cid-Y"]%string
                    [scenario.blockX; scenario.blockX])))
              0 1 scenario.blockX scenario.blockX _ _ eq_refl eq_refl eq_refl);
      cbn; lia.
  - refine (proj2 (proj2 (proj2 (fetchByCids_failures scenario.decode_raw
                    scenario.never_done ["cid-X"; "cid-Y"]%string []))) _).
    cbn. lia.
Defined.

Lemma fetchByCids_complete_witness :
  length [Some (RawData scenario.blockX); Some (RawData scenario.blockY)]
    = length ["cid-X"; "cid-Y"]%string
  /\ forall i c, ["cid-X"; "cid-Y"]%string !! i = Some c ->
       exists k b m,
         k < length ["cid-X"; "cid-Y"]%string
         /\ [scenario.blockY; scenario.blockX] !! k = Some b
         /\ blk_cid b = c /\ scenario.decode_raw (RawData b) = Ok m
         /\ [Some (RawData scenario.blockX); Some (RawData scenario.blockY)]
              !! i = Some (Some m).
Proof.
  refine (fetchByCids_complete scenario.decode_raw scenario.never_done
            ["cid-X"; "cid-Y"]%string [scenario.blockY; scenario.blockX]
            _ eq_refl _).
  cbn. lia.
Defined.

End fetch_instances.

(** ** Requests, peers and traces *)

Section request_facts.

Import blocksync.
Local Open Scope Z_scope.

(** The events of one call of [fetchBlocksBlockSync]. *)
Lemma fetchBlocksBlockSync_events h ctx p req tr :
  exists report r,
    fetchBlocksBlockSync h ctx p req tr = (r, tr ++ [EvNewStream p; report])
    /\ is_tracker_report report = true
    /\ event_peer report = Some p.
Proof.
  unfold fetchBlocksBlockSync, bind, ctx_Done, emit, ret.
  destruct (NewStream h (ctx (length tr)) p);
    [|destruct (WriteCborRPC h p req);
      [|destruct (ReadCborRPC h p req)]];
    rewrite <- app_assoc; do 2 eexists; repeat split; reflexivity.
Qed.

(** One request to one peer: protocol negotiation decides on the first
    protocol the peer store returns.  The block-sync protocol opens one
    stream and makes one tracker report; graphsync is one fetch with no
    report here; a peer store error, an empty answer or an unknown first
    protocol end the call with an error before anything is sent, and
    nothing is reported to the tracker.  Every event is about the peer of
    the call. *)
Theorem sendRequestToPeer_contacts_once
    (h : Host) (ctx : Context) (p : PeerID) (req : BlockSyncRequest)
    (tr : list Event) :
  exists r evs,
    sendRequestToPeer h ctx p req tr = (r, tr ++ evs)
    /\ Forall (fun e => event_peer e = Some p) evs
    /\ (forall x supp, SupportsProtocols h p = Ok (x :: supp) ->
          x = BlockSyncProtocolID ->
          exists report, evs = [EvNewStream p; report]
                         /\ is_tracker_report report = true)
    /\ (forall x supp, SupportsProtocols h p = Ok (x :: supp) ->
          x = gsproto -> evs = [EvGraphSync p])
    /\ (match SupportsProtocols h p with
        | Ok (x :: _) => x <> BlockSyncProtocolID /\ x <> gsproto
        | _ => True
        end -> evs = [] /\ is_ok r = false).
Proof.
  unfold sendRequestToPeer.
  destruct (SupportsProtocols h p) as [[|x supp]|e] eqn:Hs.
  - exists (Err (Errorf ("peer " +:+ p +:+ " supports no known sync protocols"))), [].
    unfold ret. rewrite app_nil_r.
    repeat split; try constructor; intros; discriminate.
  - destruct (String.eqb_spec x BlockSyncProtocolID) as [Hb|Hb].
    + destruct (fetchBlocksBlockSync_events h ctx p req tr)
        as (report & r & Hrun & Hrep & Hpeer).
      unfold bind. rewrite Hrun.
      exists (match r with
              | Err err => Err (Wrapf "blocksync req failed: " err)
              | Ok res => Ok res
              end), [EvNewStream p; report].
      split; [destruct r; reflexivity|].
      split; [repeat constructor; assumption|].
      split; [intros; eauto|].
      split.
      { intros x0 s0 Heq Hx0. inversion Heq; subst.
        unfold gsproto, BlockSyncProtocolID in *. discriminate. }
      intros [Hne _]. contradiction.
    + destruct (String.eqb_spec x gsproto) as [Hg|Hg].
      * unfold bind, emit.
        exists (match fetchBlocksGraphSync h p req with
                | Err err => Err (Wrapf "graphsync req failed: " err)
                | Ok res => Ok res
                end), [EvGraphSync p].
        split; [destruct (fetchBlocksGraphSync h p req); reflexivity|].
        split; [repeat constructor|].
        split; [intros ? ? Heq ->; inversion Heq; subst; contradiction|].
        split; [reflexivity|].
        intros [_ Hne]. contradiction.
      * eexists _, []. unfold ret. rewrite app_nil_r.
        split; [reflexivity|]. split; [constructor|].
        split; [intros ? ? Heq ->; inversion Heq; subst; contradiction|].
        split; [intros ? ? Heq ->; inversion Heq; subst; contradiction|].
        intros _. split; reflexivity.
  - eexists _, []. unfold ret. rewrite app_nil_r.
    split; [reflexivity|]. split; [constructor|].
    repeat split; intros; discriminate.
Qed.

(** The same in the form the loops use: the events of a call contact the
    peer at most once and are all about it. *)
Lemma sendRequestToPeer_events h ctx p req tr r tr' :
  sendRequestToPeer h ctx p req tr = (r, tr') ->
  exists evs, tr' = tr ++ evs
              /\ Forall (fun e => event_peer e = Some p) evs
              /\ (contacts evs = [] \/ contacts evs = [p]).
Proof.
  intros Hrun. unfold sendRequestToPeer in Hrun.
  destruct (SupportsProtocols h p) as [[|x supp]|e].
  - unfold ret in Hrun. inversion Hrun; subst. exists [].
    rewrite app_nil_r. repeat split; [constructor | now left].
  - destruct (String.eqb x BlockSyncProtocolID).
    + destruct (fetchBlocksBlockSync_events h ctx p req tr)
        as (report & r0 & Hr0 & Hrep & Hpeer).
      unfold bind in Hrun. rewrite Hr0 in Hrun.
      exists [EvNewStream p; report].
      split; [destruct r0; unfold ret in Hrun; now inversion Hrun|].
      split; [repeat constructor; assumption|].
      right. destruct report; try discriminate; reflexivity.
    + destruct (String.eqb x gsproto).
      * unfold bind, emit in Hrun. exists [EvGraphSync p].
        split; [destruct (fetchBlocksGraphSync h p req);
                unfold ret in Hrun; now inversion Hrun|].
        split; [repeat constructor | now right].
      * unfold ret in Hrun. inversion Hrun; subst. exists [].
        rewrite app_nil_r. repeat split; [constructor | now left].
  - unfold ret in Hrun. inversion Hrun; subst. exists [].
    rewrite app_nil_r. repeat split; [constructor | now left].
Qed.

End request_facts.

Section request_instances.

Import blocksync.
Local Open Scope Z_scope.

Lemma sendRequestToPeer_contacts_once_witness :
  exists r report,
    sendRequestToPeer (scenario.host_both (fun _ => scenario.resp_two))
      scenario.never_done "A" (mkBlockSyncRequest ["cid-1"]%string 2 BSOptBlocks)
      []
    = (r, [EvNewStream "A"; report])
    /\ is_tracker_report report = true.
Proof.
  destruct (sendRequestToPeer_contacts_once
              (scenario.host_both (fun _ => scenario.resp_two))
              scenario.never_done "A"%string
              (mkBlockSyncRequest ["cid-1"]%string 2 BSOptBlocks) [])
    as (r & evs & Hrun & _ & Hbs & _).
  destruct (Hbs BlockSyncProtocolID [gsproto] eq_refl eq_refl)
    as (report & -> & Hrep).
  exists r, report. split; [exact Hrun | exact Hrep].
Defined.

End request_instances.

(** ** The peer loop of [GetBlocks] *)

Section getblocks_facts.

Import blocksync.
Local Open Scope Z_scope.

Lemma about_peers_further p ps evs :
  Forall (about_peers ps) evs -> Forall (about_peers (p :: ps)) evs.
Proof.
  intros H. eapply Forall_impl; [exact H|].
  intros e [He|(q & Hq & Hin)]; [now left|].
  right. exists q. split; [exact Hq | now apply list_elem_of_further].
Qed.

Lemma about_peers_here p ps evs :
  Forall (fun e => event_peer e = Some p) evs ->
  Forall (about_peers (p :: ps)) evs.
Proof.
  intros H. eapply Forall_impl; [exact H|].
  intros e He. right. exists p.
  split; [exact He | apply list_elem_of_here].
Qed.

Lemma contacts_step p ps (c1 c2 : list PeerID) :
  c1 = [] \/ c1 = [p] -> c2 `sublist_of` ps -> c1 ++ c2 `sublist_of` p :: ps.
Proof.
  intros [->| ->] Hc2; cbn; [now apply sublist_cons | now apply sublist_skip].
Qed.

(** The events of the loop: peers are contacted in list order, each at
    most once per occurrence in the list. *)
Lemma GetBlocks_loop_events h ctx req ps : forall oerr tr r tr',
  GetBlocks_loop h ctx req ps oerr tr = (r, tr') ->
  exists evs, tr' = tr ++ evs
              /\ contacts evs `sublist_of` ps
              /\ Forall (about_peers ps) evs.
Proof.
  induction ps as [|p ps IH]; intros oerr tr r tr' Hrun.
  - cbn in Hrun. unfold ret in Hrun. inversion Hrun; subst. exists [].
    rewrite app_nil_r. repeat split; constructor.
  - cbn [GetBlocks_loop] in Hrun. unfold bind, ctx_Done in Hrun.
    destruct (ctx (length tr)).
    { unfold ret in Hrun. inversion Hrun; subst. exists [].
      rewrite app_nil_r. repeat split; [apply sublist_nil_l | constructor]. }
    destruct (sendRequestToPeer h ctx p req tr) as [r0 tr1] eqn:Hsend.
    apply sendRequestToPeer_events in Hsend as (evs1 & -> & Hab1 & Hc1).
    assert (Hrec : forall oerr',
              GetBlocks_loop h ctx req ps oerr' (tr ++ evs1) = (r, tr') ->
              exists evs, tr' = tr ++ evs
                          /\ contacts evs `sublist_of` p :: ps
                          /\ Forall (about_peers (p :: ps)) evs).
    { intros oerr' Hrec. apply IH in Hrec as (evs2 & -> & Hc2 & Hab2).
      exists (evs1 ++ evs2). rewrite app_assoc. split; [reflexivity|].
      unfold contacts. rewrite omap_app. split.
      - now apply contacts_step.
      - apply Forall_app. split;
          [now apply about_peers_here | now apply about_peers_further]. }
    destruct r0 as [res|err]; [|eapply Hrec; eauto].
    destruct ((Status res =? StatusOK) || (Status res =? StatusPartial));
      [|eapply Hrec; eauto].
    destruct (processBlocksResponse req res) as [resp|e];
      unfold ret, emit in Hrun; inversion Hrun; subst.
    + exists (evs1 ++ [EvLogGlobalSuccess; EvTagPeer p]).
      rewrite <- !app_assoc. split; [reflexivity|].
      unfold contacts. rewrite omap_app. cbn [omap list_omap contacted].
      split; [apply contacts_step; [exact Hc1 | apply sublist_nil_l]|].
      apply Forall_app. split; [now apply about_peers_here|].
      constructor; [now left|]. constructor; [|constructor].
      right. exists p. split; [reflexivity | apply list_elem_of_here].
    + exists evs1. split; [reflexivity|].
      split; [|now apply about_peers_here].
      rewrite <- (app_nil_r (contacts evs1)).
      apply contacts_step; [exact Hc1 | apply sublist_nil_l].
Qed.

(** The errors of the loop: cancellation, a response that fails
    validation, or all peers exhausted with the last error seen. *)
Lemma GetBlocks_loop_errors h ctx req ps : forall oerr tr e tr',
  GetBlocks_loop h ctx req ps oerr tr = (Err e, tr') ->
  e = Wrapf "blocksync getblocks failed: " Canceled
  \/ (exists err res,
        e = Wrapf "success response from peer failed to process: " err
        /\ processBlocksResponse req res = Err err)
  \/ (exists oerr', e = ErrAllPeersFailed oerr'
                    /\ (oerr' = None <-> ps = [] /\ oerr = None)).
Proof.
  induction ps as [|p ps IH]; intros oerr tr e tr' Hrun.
  - cbn in Hrun. unfold ret in Hrun. inversion Hrun; subst.
    right; right. exists oerr. split; [reflexivity | tauto].
  - cbn [GetBlocks_loop] in Hrun. unfold bind, ctx_Done in Hrun.
    destruct (ctx (length tr)).
    { unfold ret in Hrun. inversion Hrun. now left. }
    destruct (sendRequestToPeer h ctx p req tr) as [[res|err] tr1].
    + destruct ((Status res =? StatusOK) || (Status res =? StatusPartial)).
      * destruct (processBlocksResponse req res) as [resp|e0] eqn:Hp;
          unfold ret, emit in Hrun; inversion Hrun; subst.
        right; left. eauto.
      * apply IH in Hrun as [H|[H|(o & -> & Ho)]]; [now left | now right; left|].
        right; right. exists o. split; [reflexivity|].
        split; [intros Hn; apply Ho in Hn as [_ Hn]; discriminate
               | intros [Hn _]; discriminate].
    + apply IH in Hrun as [H|[H|(o & -> & Ho)]]; [now left | now right; left|].
      right; right. exists o. split; [reflexivity|].
      split; [intros Hn; apply Ho in Hn as [_ Hn]; discriminate
             | intros [Hn _]; discriminate].
Qed.

End getblocks_facts.

Section getblocks_theorems.

Import blocksync.
Local Open Scope Z_scope.

(** The first response with status OK or Partial decides [GetBlocks].
    When the peers before [p] have all failed and [p] sends such a
    response, the call returns the validated chain, after logging a global
    success and tagging [p], or, if validation fails, the validation error
    wrapped; in both cases no later peer is contacted. *)
Theorem GetBlocks_first_response
    (h : Host) (peers : list PeerID) (perm : list nat) (ctx : Context)
    (tsk : TipSetKey) (count : Z) (tr : list Event)
    (pre : list PeerID) (p : PeerID) (post : list PeerID)
    (oerr : option Error) (tr1 : list Event)
    (res : BlockSyncResponse) (tr2 : list Event) :
  let req := mkBlockSyncRequest tsk (count mod 2 ^ 64) BSOptBlocks in
  shufflePrefix perm peers = Some (pre ++ p :: post) ->
  GetBlocks_loop h ctx req pre None tr = (Err (ErrAllPeersFailed oerr), tr1) ->
  ctx (length tr1) = false ->
  sendRequestToPeer h ctx p req tr1 = (Ok res, tr2) ->
  Status res = StatusOK \/ Status res = StatusPartial ->
  GetBlocks h peers perm ctx tsk count tr
  = match processBlocksResponse req res with
    | Ok out => (Ok out, tr2 ++ [EvLogGlobalSuccess; EvTagPeer p])
    | Err err =>
        (Err (Wrapf "success response from peer failed to process: " err), tr2)
    end.
Proof.
  intros req Hsh Hpre Hctx Hsend Hst.
  unfold GetBlocks. fold req. rewrite Hsh.
  rewrite (GetBlocks_loop_app _ _ _ _ _ _ _ _ _ Hpre).
  cbn [GetBlocks_loop]. unfold bind, ctx_Done. rewrite Hctx, Hsend.
  assert (Hb : (Status res =? StatusOK) || (Status res =? StatusPartial) = true).
  { destruct Hst as [-> | ->]; reflexivity. }
  rewrite Hb. destruct (processBlocksResponse req res); [|reflexivity].
  unfold emit, ret. now rewrite <- app_assoc.
Qed.

Lemma GetBlocks_first_response_witness :
  GetBlocks (scenario.host_of (scenario.answer_after_B scenario.resp_unlinked))
    ["B"; "A"; "C"]%string [0; 1; 2]%nat scenario.never_done
    ["cid-1"]%string 2 []
  = (Err (Wrapf "success response from peer failed to process: "
            (ErrBadLinkage 0 1)),
     [EvNewStream "B"; EvLogSuccess "B"; EvNewStream "A"; EvLogSuccess "A"]).
Proof.
  exact (GetBlocks_first_response
           (scenario.host_of (scenario.answer_after_B scenario.resp_unlinked))
           ["B"; "A"; "C"]%string [0; 1; 2]%nat scenario.never_done
           ["cid-1"]%string 2 [] ["B"]%string "A"%string ["C"]%string
           (Some (Errorf "not found"))
           [EvNewStream "B"; EvLogSuccess "B"] scenario.resp_unlinked
           [EvNewStream "B"; EvLogSuccess "B"; EvNewStream "A";
            EvLogSuccess "A"]
           eq_refl eq_refl eq_refl eq_refl (or_introl eq_refl)).
Defined.

(** When every peer has failed, [GetBlocks] surfaces the error of the last
    peer only: the error of sending to it, or the error [processStatus]
    makes of its status.  Errors of earlier peers are dropped. *)
Theorem GetBlocks_last_error
    (h : Host) (peers : list PeerID) (perm : list nat) (ctx : Context)
    (tsk : TipSetKey) (count : Z) (tr : list Event)
    (pre : list PeerID) (p : PeerID)
    (oerr : option Error) (tr1 : list Event)
    (r : result Error BlockSyncResponse) (tr2 : list Event) :
  let req := mkBlockSyncRequest tsk (count mod 2 ^ 64) BSOptBlocks in
  shufflePrefix perm peers = Some (pre ++ [p]) ->
  GetBlocks_loop h ctx req pre None tr = (Err (ErrAllPeersFailed oerr), tr1) ->
  ctx (length tr1) = false ->
  sendRequestToPeer h ctx p req tr1 = (r, tr2) ->
  match r with
  | Ok res => Status res <> StatusOK /\ Status res <> StatusPartial
  | Err _ => True
  end ->
  GetBlocks h peers perm ctx tsk count tr
  = (Err (Wrapf "GetBlocks failed with all peers: "
            match r with
            | Ok res => processStatus req res
            | Err err => err
            end), tr2).
Proof.
  intros req Hsh Hpre Hctx Hsend Hfail.
  unfold GetBlocks. fold req. rewrite Hsh.
  rewrite (GetBlocks_loop_app _ _ _ _ _ _ _ _ _ Hpre).
  cbn [GetBlocks_loop]. unfold bind, ctx_Done. rewrite Hctx, Hsend.
  destruct r as [res|err]; [|reflexivity].
  destruct Hfail as [H1 H2].
  destruct (Z.eqb_spec (Status res) StatusOK); [contradiction|].
  destruct (Z.eqb_spec (Status res) StatusPartial); [contradiction|].
  reflexivity.
Qed.

Lemma GetBlocks_last_error_witness :
  GetBlocks scenario.host_failing ["A"; "B"]%string [0; 1]%nat
    scenario.never_done ["cid-1"]%string 2 []
  = (Err (Wrapf "GetBlocks failed with all peers: "
            (Wrapf "blocksync req failed: " (Errorf "write timeout"))),
     [EvNewStream "A"; EvRemovePeer "A"; EvNewStream "B"; EvLogFailure "B"]).
Proof.
  exact (GetBlocks_last_error scenario.host_failing
           ["A"; "B"]%string [0; 1]%nat scenario.never_done
           ["cid-1"]%string 2 [] ["A"]%string "B"%string
           (Some (Wrapf "blocksync req failed: "
                    (Wrapf "failed to open stream to peer: "
                       (Errorf "no usable connection to peer"))))
           [EvNewStream "A"; EvRemovePeer "A"]
           (Err (Wrapf "blocksync req failed: " (Errorf "write timeout")))
           [EvNewStream "A"; EvRemovePeer "A"; EvNewStream "B";
            EvLogFailure "B"]
           eq_refl eq_refl eq_refl eq_refl I).
Defined.

(** [GetBlocks] is sequential: the peers it contacts, in the order it
    contacts them, are a sublist of the shuffled peer list, so a peer is
    contacted at most once per entry and never before an earlier entry is
    done with; every event of the call is the global success or is about a
    listed peer. *)
Theorem GetBlocks_contacts_in_order
    (h : Host) (peers : list PeerID) (perm : list nat) (ctx : Context)
    (tsk : TipSetKey) (count : Z) (tr : list Event)
    (ps : list PeerID) (r : result Error (list TipSet)) (tr' : list Event) :
  shufflePrefix perm peers = Some ps ->
  GetBlocks h peers perm ctx tsk count tr = (r, tr') ->
  exists evs, tr' = tr ++ evs
              /\ contacts evs `sublist_of` ps
              /\ (length (contacts evs) <= length peers)%nat
              /\ Forall (about_peers ps) evs.
Proof.
  intros Hsh Hrun. unfold GetBlocks in Hrun. rewrite Hsh in Hrun.
  apply GetBlocks_loop_events in Hrun as (evs & -> & Hsub & Hab).
  exists evs. repeat split; auto.
  apply sublist_length in Hsub.
  assert (length ps = length peers); [|lia].
  unfold shufflePrefix in Hsh.
  destruct (mapM (fun v => peers !! v) perm) as [buf|]; [|discriminate].
  cbn in Hsh. inversion Hsh. unfold copy.
  rewrite length_app, length_take, length_drop. lia.
Qed.

Lemma GetBlocks_contacts_in_order_witness :
  exists evs,
    [EvNewStream "B"; EvLogSuccess "B"; EvNewStream "A"; EvLogSuccess "A";
     EvLogGlobalSuccess; EvTagPeer "A"] = [] ++ evs
    /\ contacts evs `sublist_of` ["B"; "A"; "C"]%string
    /\ (length (contacts evs) <= length ["B"; "A"; "C"]%string)%nat
    /\ Forall (about_peers ["B"; "A"; "C"]%string) evs.
Proof.
  exact (GetBlocks_contacts_in_order
           (scenario.host_of (scenario.answer_after_B scenario.resp_two))
           ["B"; "A"; "C"]%string [0; 1; 2]%nat scenario.never_done
           ["cid-1"]%string 2 [] _ _ _ eq_refl eq_refl).
Defined.

(** The errors of [GetBlocks]: the cancellation error, the wrapped error
    of a response that failed validation, or "failed with all peers"
    around the last error seen.  That last error is nil, and the message
    ends in the verb's rendering of nil, exactly when there was no peer to
    try. *)
Theorem GetBlocks_error_kinds
    (h : Host) (peers : list PeerID) (perm : list nat) (ctx : Context)
    (tsk : TipSetKey) (count : Z) (tr : list Event)
    (ps : list PeerID) (e : Error) (tr' : list Event) :
  shufflePrefix perm peers = Some ps ->
  GetBlocks h peers perm ctx tsk count tr = (Err e, tr') ->
  e = Wrapf "blocksync getblocks failed: " Canceled
  \/ (exists err res,
        e = Wrapf "success response from peer failed to process: " err
        /\ processBlocksResponse
             (mkBlockSyncRequest tsk (count mod 2 ^ 64) BSOptBlocks) res
           = Err err)
  \/ (exists last, ps <> []
                   /\ e = Wrapf "GetBlocks failed with all peers: " last)
  \/ (ps = [] /\ e = WrapfNil "GetBlocks failed with all peers: ").
Proof.
  intros Hsh Hrun. unfold GetBlocks in Hrun. rewrite Hsh in Hrun.
  apply GetBlocks_loop_errors in Hrun as [H|[H|(o & -> & Ho)]];
    [now left | now right; left|].
  right; right. destruct o as [last|].
  - left. exists last. split; [|reflexivity].
    intros ->. destruct Ho as [_ Ho]. specialize (Ho (conj eq_refl eq_refl)).
    discriminate.
  - right. destruct Ho as [Ho _]. destruct (Ho eq_refl) as [-> _].
    split; reflexivity.
Qed.

Lemma GetBlocks_error_kinds_witness :
  Wrapf "blocksync getblocks failed: " Canceled
    = Wrapf "blocksync getblocks failed: " Canceled
  \/ (exists err res,
        Wrapf "blocksync getblocks failed: " Canceled
          = Wrapf "success response from peer failed to process: " err
        /\ processBlocksResponse
             (mkBlockSyncRequest ["cid-1"]%string (2 mod 2 ^ 64) BSOptBlocks)
             res = Err err)
  \/ (exists last, ["A"]%string <> []
                   /\ Wrapf "blocksync getblocks failed: " Canceled
                      = Wrapf "GetBlocks failed with all peers: " last)
  \/ (["A"]%string = []
      /\ Wrapf "blocksync getblocks failed: " Canceled
         = WrapfNil "GetBlocks failed with all peers: ").
Proof.
  exact (GetBlocks_error_kinds
           (scenario.host_of (fun _ => scenario.resp_two))
           ["A"]%string [0%nat] scenario.cancelled ["cid-1"]%string 2 []
           _ _ _ eq_refl eq_refl).
Defined.

End getblocks_theorems.

(** ** [GetChainMessages] and [GetFullTipSet] *)

Section chainmessages_facts.

Import blocksync.
Local Open Scope Z_scope.



Lemma GetChainMessages_loop_events h ctx req n ps : forall err tr r tr',
  GetChainMessages_loop h ctx req n ps err tr = (r, tr') ->
  exists evs, tr' = tr ++ evs
              /\ contacts evs `sublist_of` ps
              /\ Forall (about_peers ps) evs.
Proof.
  induction ps as [|p ps IH]; intros err tr r tr' Hrun.
  - cbn in Hrun. exists [].
    assert (tr' = tr) as ->
      by (destruct err; unfold ret in Hrun; now inversion Hrun).
    rewrite app_nil_r. repeat split; constructor.
  - cbn [GetChainMessages_loop] in Hrun. unfold bind in Hrun.
    destruct (sendRequestToPeer h ctx p req tr) as [r0 tr1] eqn:Hsend.
    apply sendRequestToPeer_events in Hsend as (evs1 & -> & Hab1 & Hc1).
    assert (Hrec : forall err',
              GetChainMessages_loop h ctx req n ps err' (tr ++ evs1) = (r, tr') ->
              exists evs, tr' = tr ++ evs
                          /\ contacts evs `sublist_of` p :: ps
                          /\ Forall (about_peers (p :: ps)) evs).
    { intros err' Hrec. apply IH in Hrec as (evs2 & -> & Hc2 & Hab2).
      exists (evs1 ++ evs2). rewrite app_assoc. split; [reflexivity|].
      unfold contacts. rewrite omap_app. split.
      - now apply contacts_step.
      - apply Forall_app. split;
          [now apply about_peers_here | now apply about_peers_further]. }
    destruct r0 as [res|rerr]; [|eapply Hrec; eauto].
    destruct (Status res =? StatusOK).
    { unfold emit, ret in Hrun. inversion Hrun; subst.
      exists (evs1 ++ [EvLogGlobalSuccess]).
      rewrite <- !app_assoc. split; [reflexivity|].
      unfold contacts. rewrite omap_app. cbn [omap list_omap contacted].
      split; [apply contacts_step; [exact Hc1 | apply sublist_nil_l]|].
      apply Forall_app. split; [now apply about_peers_here|].
      constructor; [now left | constructor]. }
    destruct (Status res =? StatusPartial); [|eapply Hrec; eauto].
    unfold ret in Hrun. inversion Hrun; subst.
    exists evs1. split; [reflexivity|].
    split; [|now apply about_peers_here].
    rewrite <- (app_nil_r (contacts evs1)).
    apply contacts_step; [exact Hc1 | apply sublist_nil_l].
Qed.

End chainmessages_facts.

Section chainmessages_theorems.

Import blocksync.
Local Open Scope Z_scope.





(** [GetChainMessages] is sequential like [GetBlocks]: the peers it
    contacts, in order, are a sublist of the shuffled peer list, and every
    event is the global success or is about a listed peer. *)
Theorem GetChainMessages_contacts_in_order
    (h : Host) (peers : list PeerID) (perm : list nat) (ctx : Context)
    (hd : TipSet) (count : Z) (tr : list Event)
    (ps : list PeerID) (r : result Error (list BSTipSet)) (tr' : list Event) :
  shufflePrefix perm peers = Some ps ->
  GetChainMessages h peers perm ctx hd count tr = (r, tr') ->
  exists evs, tr' = tr ++ evs
              /\ contacts evs `sublist_of` ps
              /\ Forall (about_peers ps) evs.
Proof.
  intros Hsh Hrun. unfold GetChainMessages in Hrun. rewrite Hsh in Hrun.
  now apply GetChainMessages_loop_events in Hrun.
Qed.

Lemma GetChainMessages_contacts_in_order_witness :
  exists evs,
    [EvNewStream "A"; EvRemovePeer "A"; EvNewStream "B"; EvRemovePeer "B"]
      = [] ++ evs
    /\ contacts evs `sublist_of` ["A"; "B"]%string
    /\ Forall (about_peers ["A"; "B"]%string) evs.
Proof.
  exact (GetChainMessages_contacts_in_order
           (scenario.host_of (fun _ => scenario.resp_two))
           ["A"; "B"]%string [0; 1]%nat scenario.cancelled
           (scenario.tipset_of scenario.hdr1) 2 [] _ _ _ eq_refl eq_refl).
Defined.

End chainmessages_theorems.

Section fulltipset_theorems.

Import blocksync.
Local Open Scope Z_scope.
Context {FullTipSet : Type}.
Variable bstsToFullTipSet : BSTipSet -> result Error FullTipSet.
Variable Quote : string -> string.

(** [GetFullTipSet] asks one peer only, for one tipset with blocks and
    messages, and there is no second try.  It succeeds exactly when that
    peer answers with status 0 and a chain that is not empty, and then
    returns what [bstsToFullTipSet] makes of the first chain element, the
    rest of the chain being ignored.  An error of the request is returned
    as it is, a status 0 with an empty chain is "got zero length chain
    response", and every other status, Partial included, is an error. *)
Theorem GetFullTipSet_spec
    (h : Host) (ctx : Context) (p : PeerID) (tsk : TipSetKey)
    (tr : list Event) :
  exists r0 tr',
    sendRequestToPeer h ctx p (fullTipSetRequest tsk) tr = (r0, tr')
    /\ RequestLength (fullTipSetRequest tsk) = 1
    /\ Options (fullTipSetRequest tsk) = 3
    /\ snd (GetFullTipSet bstsToFullTipSet Quote h ctx p tsk tr) = tr'
    /\ (exists evs, tr' = tr ++ evs
                    /\ (contacts evs = [] \/ contacts evs = [p]))
    /\ match r0 with
       | Err err =>
           fst (GetFullTipSet bstsToFullTipSet Quote h ctx p tsk tr) = Err err
       | Ok res =>
           (Status res = StatusOK ->
            fst (GetFullTipSet bstsToFullTipSet Quote h ctx p tsk tr)
            = match Chain res with
              | [] => Err (Errorf "got zero length chain response")
              | bts :: _ => bstsToFullTipSet bts
              end)
           /\ (Status res <> StatusOK ->
               is_ok (fst (GetFullTipSet bstsToFullTipSet Quote h ctx p tsk tr))
               = false)
           /\ (Status res = StatusPartial ->
               fst (GetFullTipSet bstsToFullTipSet Quote h ctx p tsk tr)
               = Err (Errorf "partial responses are not handled for single tipset fetching"))
       end.
Proof.
  destruct (sendRequestToPeer h ctx p (fullTipSetRequest tsk) tr)
    as [r0 tr'] eqn:Hsend.
  exists r0, tr'. split; [reflexivity|]. split; [reflexivity|].
  split; [reflexivity|].
  pose proof (sendRequestToPeer_events _ _ _ _ _ _ _ Hsend)
    as (evs & Htr & _ & Hc).
  unfold GetFullTipSet, bind. rewrite Hsend.
  split.
  { destruct r0 as [res|err]; [|reflexivity].
    destruct (Status res =? 0);
      [destruct (Chain res); reflexivity|].
    repeat (match goal with
            | |- context [if ?c then _ else _] => destruct c
            end; try reflexivity). }
  split; [eauto|].
  destruct r0 as [res|err]; [|reflexivity].
  split; [|split].
  - intros ->. cbn [Z.eqb StatusOK]. destruct (Chain res); reflexivity.
  - intros Hne. destruct (Z.eqb_spec (Status res) 0) as [H0|_];
      [contradiction|].
    repeat (match goal with
            | |- context [if ?c then _ else _] => destruct c
            end; try reflexivity).
  - intros ->. reflexivity.
Qed.

End fulltipset_theorems.

Section fulltipset_instances.

Import blocksync.
Local Open Scope Z_scope.

Lemma GetFullTipSet_spec_witness :
  fst (GetFullTipSet scenario.full_of scenario.quote_plain
         (scenario.host_of (fun _ => scenario.resp_two))
         scenario.never_done "A" ["cid-1"]%string [])
  = Ok (scenario.wire scenario.hdr1).
Proof.
  destruct (GetFullTipSet_spec scenario.full_of scenario.quote_plain
              (scenario.host_of (fun _ => scenario.resp_two))
              scenario.never_done "A"%string ["cid-1"]%string [])
    as (r0 & tr' & Hsend & _ & _ & _ & _ & Hres).
  cbv in Hsend. inversion Hsend; subst r0.
  destruct Hres as [Hok _]. exact (Hok eq_refl).
Defined.

End fulltipset_instances.

(** ** More on the response validator *)

Section validator_more.

Import blocksync.

Lemma processBlocksResponse_loop_complete chain tss :
  Forall2 builds chain tss ->
  forall bi cur out,
    linked_from cur tss ->
    processBlocksResponse_loop bi cur out chain = Ok (out ++ tss).
Proof.
  induction 1 as [|b t chain tss Hb _ IH]; intros bi cur out Hl.
  - cbn. now rewrite app_nil_r.
  - destruct Hl as [Hpar Hl]. cbn [processBlocksResponse_loop].
    unfold builds in Hb. rewrite Hb.
    unfold CidArrsEqual. rewrite bool_decide_eq_true_2 by exact Hpar.
    cbn [negb]. rewrite (IH (S bi) t (out ++ [t]) Hl).
    now rewrite <- app_assoc.
Qed.

Lemma processBlocksResponse_loop_build_error pre tspre :
  Forall2 builds pre tspre ->
  forall bi cur out b post e,
    linked_from cur tspre -> NewTipSet (Blocks b) = Err e ->
    processBlocksResponse_loop bi cur out (pre ++ b :: post) = Err e.
Proof.
  induction 1 as [|p t pre tspre Hp _ IH]; intros bi cur out b post e Hl Hb.
  - cbn [app processBlocksResponse_loop]. now rewrite Hb.
  - destruct Hl as [Hpar Hl]. cbn [app processBlocksResponse_loop].
    unfold builds in Hp. rewrite Hp.
    unfold CidArrsEqual. rewrite bool_decide_eq_true_2 by exact Hpar.
    cbn [negb]. now apply IH.
Qed.

(** The validator accepts every chain it can build and link, and returns
    the tipsets in chain order; when the elements before [chain[k]] build
    and link and [chain[k]] does not build, the error of the tipset
    constructor is returned as it is. *)
Theorem processBlocksResponse_accepts :
  (forall req res first rest t0 tss,
      Chain res = first :: rest ->
      NewTipSet (Blocks first) = Ok t0 ->
      Forall2 builds rest tss -> linked_from t0 tss ->
      processBlocksResponse req res = Ok (t0 :: tss))
  /\ (forall req res first e,
      head (Chain res) = Some first ->
      NewTipSet (Blocks first) = Err e ->
      processBlocksResponse req res = Err e)
  /\ (forall req res first pre b post t0 tspre e,
      Chain res = first :: pre ++ b :: post ->
      NewTipSet (Blocks first) = Ok t0 ->
      Forall2 builds pre tspre -> linked_from t0 tspre ->
      NewTipSet (Blocks b) = Err e ->
      processBlocksResponse req res = Err e).
Proof.
  split; [|split].
  - intros req res first rest t0 tss Hc H0 Hb Hl.
    unfold processBlocksResponse. rewrite Hc, H0.
    apply (processBlocksResponse_loop_complete rest tss Hb 1 t0 [t0] Hl).
  - intros req res first e Hc He. unfold processBlocksResponse.
    destruct (Chain res) as [|f rest]; [discriminate|].
    cbn in Hc. inversion Hc; subst. now rewrite He.
  - intros req res first pre b post t0 tspre e Hc H0 Hb Hl He.
    unfold processBlocksResponse. rewrite Hc, H0.
    now apply (processBlocksResponse_loop_build_error pre tspre Hb).
Qed.

Lemma processBlocksResponse_accepts_witness :
  processBlocksResponse (mkBlockSyncRequest ["cid-1"]%string 2 BSOptBlocks)
    scenario.resp_two
  = Ok [scenario.tipset_of scenario.hdr1; scenario.tipset_of scenario.hdr2].
Proof.
  refine (proj1 processBlocksResponse_accepts _ scenario.resp_two
            (scenario.wire scenario.hdr1) [scenario.wire scenario.hdr2]
            (scenario.tipset_of scenario.hdr1)
            [scenario.tipset_of scenario.hdr2] eq_refl eq_refl _ _).
  - repeat constructor.
  - split; [reflexivity | exact I].
Defined.

End validator_more.

(** ** More on the message fetchers *)

Section fetch_bounds.

Import blocksync.

(** The index of a cid is the last position at which it was requested. *)
Lemma build_cidIndex_last cids : forall i (m : gmap Cid nat) c ix,
  build_cidIndex i cids m !! c = Some ix ->
  (exists j, ix = i + j /\ cids !! j = Some c
             /\ forall j', j < j' -> cids !! j' <> Some c)
  \/ (m !! c = Some ix /\ c ∉ cids).
Proof.
  induction cids as [|c0 cids IH]; intros i m c ix H; cbn [build_cidIndex] in H.
  - right. split; [exact H | apply not_elem_of_nil].
  - apply IH in H as [(j & -> & Hj & Hlast)|[H Hnot]].
    + left. exists (S j). split; [lia|]. split; [exact Hj|].
      intros j' Hlt. destruct j' as [|j']; [lia|]. cbn. apply Hlast. lia.
    + apply lookup_insert_Some in H as [[-> ->]|[Hne H]].
      * left. exists 0. split; [lia|]. split; [reflexivity|].
        intros j' Hlt Hj'. destruct j' as [|j']; [lia|]. cbn in Hj'.
        apply Hnot. eapply list_elem_of_lookup_2; eauto.
      * right. split; [exact H|]. apply not_elem_of_cons. split; auto.
Qed.

Section generic.

Context {S : Type} (cb : nat -> Block -> S -> result Error S).

Lemma fetchCids_loop_take len idx n : forall i blocks st,
  fetchCids_loop cb len idx n i blocks st
  = fetchCids_loop cb len idx n i (take n blocks) st.
Proof.
  induction n as [|n IH]; intros i blocks st; [reflexivity|].
  destruct blocks as [|b rest]; [reflexivity|].
  cbn [take fetchCids_loop].
  destruct (idx !! blk_cid b); [|reflexivity].
  destruct (cb n0 b st); [apply IH | reflexivity].
Qed.

(** [fetchCids] reads at most [len(cids)] blocks: whatever the stream
    delivers after them is never looked at and cannot fail the call. *)
Theorem fetchCids_reads_at_most_len
    (ctx : Context) (cids : list Cid) (blocks extra : list Block) (st : S) :
  length cids <= length blocks ->
  fetchCids cb ctx cids (blocks ++ extra) st = fetchCids cb ctx cids blocks st.
Proof.
  intros Hlen. unfold fetchCids.
  rewrite fetchCids_loop_take.
  rewrite (fetchCids_loop_take _ _ _ _ blocks).
  now rewrite take_app_le.
Qed.

End generic.

Section decoded.

Context {Msg : Type} (Decode : list byte -> result Error Msg).

Lemma fetchCids_loop_no_panic len idx n : forall i blocks out,
  (forall raw, Decode raw <> Err Panic) ->
  (forall c ix, idx !! c = Some ix -> ix < length out) ->
  fetchCids_loop (place Decode) len idx n i blocks out <> Err Panic.
Proof.
  induction n as [|n IH]; intros i blocks out Hdec Hidx;
    cbn [fetchCids_loop]; [discriminate|].
  destruct blocks as [|b rest].
  - destruct (decide (i = len - 1)); [now apply IH | discriminate].
  - destruct (idx !! blk_cid b) as [ix|] eqn:Hix; [|discriminate].
    destruct (place Decode ix b out) as [out1|e] eqn:Hp.
    + apply place_ok in Hp as (m & _ & _ & ->). apply IH; [exact Hdec|].
      intros c ix' Hc. rewrite length_insert. eauto.
    + unfold place in Hp. specialize (Hdec (RawData b)).
      destruct (Decode (RawData b)) as [m|e0]; [|congruence].
      destruct (lookup_lt_is_Some_2 out ix (Hidx _ _ Hix)) as [o Ho].
      rewrite Ho in Hp. destruct o; inversion Hp; discriminate.
Qed.

(** The fetchers never index their output out of range: unless the
    decoder itself panics, no call ends in an index panic, whatever the
    stream delivers. *)
Theorem fetchByCids_never_panics
    (ctx : Context) (cids : list Cid) (blocks : list Block) :
  (forall raw, Decode raw <> Err Panic) ->
  fetchByCids Decode ctx cids blocks <> Err Panic.
Proof.
  intros Hdec. unfold fetchByCids, fetchCids.
  destruct (fetchCids_loop _ _ _ _ _ _ _) as [out|e] eqn:Hloop;
    [discriminate|].
  intros Heq. inversion Heq; subst.
  revert Hloop. apply fetchCids_loop_no_panic; [exact Hdec|].
  intros c ix Hc. rewrite length_replicate.
  apply cidIndex_position in Hc. eapply lookup_lt_Some; eauto.
Qed.

(** A request that names the same cid twice cannot be served: when the
    stream delivers at least [len(cids)] blocks the call fails, because
    only the last position of the cid is ever filled. *)
Theorem fetchByCids_duplicate_request
    (ctx : Context) (cids : list Cid) (blocks : list Block)
    (i j : nat) (c : Cid) :
  i < j -> cids !! i = Some c -> cids !! j = Some c ->
  length cids <= length blocks ->
  is_ok (fetchByCids Decode ctx cids blocks) = false.
Proof.
  intros Hij Hi Hj Hlen. rewrite fetchByCids_is_ok. unfold fetchCids.
  destruct (fetchCids_loop _ _ _ _ _ _ _) as [out|e] eqn:Hloop;
    [|reflexivity].
  exfalso.
  pose proof (fetchCids_loop_length _ _ _ _ _ _ _ _ Hloop) as Hl.
  rewrite length_replicate in Hl.
  apply fetchCids_loop_complete in Hloop as [Hcnt Hslots]; [|exact Hlen].
  rewrite omap_replicate_None in Hcnt. cbn [length Nat.add] in Hcnt.
  assert (Hlt : i < length out) by (rewrite Hl; eapply lookup_lt_Some; eauto).
  destruct (omap_full out ltac:(lia) i Hlt) as [m Hm].
  destruct (Hslots i m Hm) as [Hold|(k & b & _ & _ & Hidx & _)].
  - apply lookup_replicate_1 in Hold as [Hold _]. discriminate.
  - pose proof (cidIndex_position _ _ _ Hidx) as Hpos.
    rewrite Hi in Hpos. inversion Hpos; subst.
    apply build_cidIndex_last in Hidx as [(j0 & Hj0 & _ & Hlast)|[He _]].
    + cbn in Hj0. subst j0. exact (Hlast j Hij Hj).
    + rewrite lookup_empty in He. discriminate.
Qed.

End decoded.

End fetch_bounds.

Section fetch_bounds_instances.

Import blocksync.

Lemma fetchCids_reads_at_most_len_witness :
  fetchCids (place scenario.decode_raw) scenario.never_done
    ["cid-X"; "cid-Y"]%string
    ([scenario.blockY; scenario.blockX] ++ [scenario.blockX]) [None; None]
  = fetchCids (place scenario.decode_raw) scenario.never_done
      ["cid-X"; "cid-Y"]%string [scenario.blockY; scenario.blockX]
      [None; None].
Proof.
  apply (fetchCids_reads_at_most_len (place scenario.decode_raw)).
  cbn. lia.
Defined.

Lemma fetchByCids_never_panics_witness :
  fetchByCids scenario.decode_raw scenario.never_done
    ["cid-X"; "cid-Y"]%string [scenario.blockX; scenario.blockX]
  <> Err Panic
  /\ True.
Proof.
  split; [|exact I].
  apply (fetchByCids_never_panics scenario.decode_raw).
  intros raw. discriminate.
Defined.

Lemma fetchByCids_duplicate_request_witness :
  is_ok (fetchByCids scenario.decode_raw scenario.never_done
           ["cid-X"; "cid-X"]%string [scenario.blockX; scenario.blockY])
  = false.
Proof.
  apply (fetchByCids_duplicate_request scenario.decode_raw
           scenario.never_done ["cid-X"; "cid-X"]%string
           [scenario.blockX; scenario.blockY] 0 1 "cid-X"%string);
    [lia | reflexivity | reflexivity | cbn; lia].
Defined.

End fetch_bounds_instances.

(** ** More on the codec of [DealMapping] *)

Section reader_facts.

Import cbg.
Local Open Scope Z_scope.

Lemma initial_byte_bounds (first : byte) :
  0 <= Z.shiftr (Z.land (byte_to_Z first) 224) 5 < 8
  /\ 0 <= Z.land (byte_to_Z first) 31 < 32.
Proof.
  assert (H : (0 <=? Z.shiftr (Z.land (byte_to_Z first) 224) 5)
              && (Z.shiftr (Z.land (byte_to_Z first) 224) 5 <? 8)
              && (0 <=? Z.land (byte_to_Z first) 31)
              && (Z.land (byte_to_Z first) 31 <? 32) = true)
    by (destruct first; reflexivity).
  destruct (proj1 (andb_true_iff _ _) H) as [Ha H4].
  destruct (proj1 (andb_true_iff _ _) Ha) as [Hb H3].
  destruct (proj1 (andb_true_iff _ _) Hb) as [H1 H2].
  apply Z.leb_le in H1, H3. apply Z.ltb_lt in H2, H4. lia.
Qed.

Lemma be_get_bound_acc bs : forall acc,
  0 <= acc ->
  0 <= fold_left (fun a b => Z.lor (Z.shiftl a 8) (byte_to_Z b)) bs acc
    < (acc + 1) * 2 ^ (8 * Z.of_nat (length bs)).
Proof.
  induction bs as [|b bs IH]; intros acc Hacc.
  - cbn. lia.
  - cbn [fold_left length]. pose proof (byte_to_Z_range b) as Hb.
    rewrite lor_shiftl_8 by exact Hb.
    specialize (IH (acc * 256 + byte_to_Z b) ltac:(lia)).
    replace (8 * Z.of_nat (S (length bs)))
      with (8 + 8 * Z.of_nat (length bs)) by lia.
    rewrite Z.pow_add_r by lia. change (2 ^ 8) with 256.
    assert (0 < 2 ^ (8 * Z.of_nat (length bs)))
      by (apply Z.pow_pos_nonneg; lia).
    nia.
Qed.

Lemma be_get_bound bs : 0 <= be_get bs < 2 ^ (8 * Z.of_nat (length bs)).
Proof.
  unfold be_get. pose proof (be_get_bound_acc bs 0 ltac:(lia)). lia.
Qed.

Lemma readFull_Ok n br buf rest :
  readFull n br = Ok (buf, rest) -> length buf = n /\ br = buf ++ rest.
Proof.
  unfold readFull. destruct br as [|b l].
  - destruct n; [|discriminate]. intros H. now inversion H.
  - destruct (Nat.ltb_spec (length (b :: l)) n) as [Hlt|Hge]; [discriminate|].
    intros H. inversion H; subst. split.
    + rewrite length_take. lia.
    + now rewrite take_drop.
Qed.

Lemma readFull_ext n br buf rest ext :
  (0 < n)%nat -> readFull n br = Ok (buf, rest) ->
  readFull n (br ++ ext) = Ok (buf, rest ++ ext).
Proof.
  intros Hn H. pose proof (readFull_Ok _ _ _ _ H) as [Hlen ->].
  rewrite <- app_assoc. apply readFull_app; [exact Hlen | exact Hn].
Qed.

(** What a header read gives: a major type of three bits and a [uint64];
    the bytes used are a prefix of the input, and more input behind them
    changes nothing. *)
Lemma CborReadHeader_Ok br maj v rest :
  CborReadHeader br = Ok (maj, v, rest) ->
  0 <= maj < 8 /\ 0 <= v < 2 ^ 64
  /\ (exists used, br = used ++ rest /\ used <> [])
  /\ forall ext, CborReadHeader (br ++ ext) = Ok (maj, v, rest ++ ext).
Proof.
  unfold CborReadHeader. destruct br as [|first br1]; [discriminate|].
  cbn [readByte app]. cbv zeta.
  pose proof (initial_byte_bounds first) as [Hmaj Hlow].
  destruct (Z.land (byte_to_Z first) 31 <? 24) eqn:H24.
  { intros H. inversion H; subst. repeat split; try lia.
    exists [first]. split; [reflexivity | discriminate]. }
  destruct (Z.land (byte_to_Z first) 31 =? 24).
  { destruct br1 as [|next br2]; [discriminate|]. cbn [readByte app].
    destruct (byte_to_Z next <? 24); [discriminate|].
    intros H. inversion H; subst. pose proof (byte_to_Z_range next).
    repeat split; try lia.
    exists [first; next]. split; [reflexivity | discriminate]. }
  destruct (Z.land (byte_to_Z first) 31 =? 25).
  { destruct (readFull 2 br1) as [[buf br2]|e] eqn:Hr; [|discriminate].
    intros H. inversion H; subst.
    pose proof (readFull_Ok _ _ _ _ Hr) as [Hlen ->].
    pose proof (be_get_bound buf) as Hb. rewrite Hlen in Hb.
    change (2 ^ (8 * Z.of_nat 2)) with (2 ^ 16) in Hb.
    repeat split; try lia.
    - exists (first :: buf). split; [reflexivity | discriminate].
    - intros ext. now rewrite (readFull_ext 2 _ _ _ ext ltac:(lia) Hr). }
  destruct (Z.land (byte_to_Z first) 31 =? 26).
  { destruct (readFull 4 br1) as [[buf br2]|e] eqn:Hr; [|discriminate].
    intros H. inversion H; subst.
    pose proof (readFull_Ok _ _ _ _ Hr) as [Hlen ->].
    pose proof (be_get_bound buf) as Hb. rewrite Hlen in Hb.
    change (2 ^ (8 * Z.of_nat 4)) with (2 ^ 32) in Hb.
    repeat split; try lia.
    - exists (first :: buf). split; [reflexivity | discriminate].
    - intros ext. now rewrite (readFull_ext 4 _ _ _ ext ltac:(lia) Hr). }
  destruct (Z.land (byte_to_Z first) 31 =? 27); [|discriminate].
  destruct (readFull 8 br1) as [[buf br2]|e] eqn:Hr; [|discriminate].
  intros H. inversion H; subst.
  pose proof (readFull_Ok _ _ _ _ Hr) as [Hlen ->].
  pose proof (be_get_bound buf) as Hb. rewrite Hlen in Hb.
  change (2 ^ (8 * Z.of_nat 8)) with (2 ^ 64) in Hb.
  repeat split; try lia.
  - exists (first :: buf). split; [reflexivity | discriminate].
  - intros ext. now rewrite (readFull_ext 8 _ _ _ ext ltac:(lia) Hr).
Qed.

End reader_facts.

Section decoder_facts.

Import cbg sector.
Local Open Scope Z_scope.

(** What the element loop gives when it succeeds. *)
Lemma readDealIDs_Ok n : forall i ids br ids' rest,
  readDealIDs n i ids br = (ids', Ok rest) ->
  (Forall is_uint64 ids -> Forall is_uint64 ids')
  /\ length ids' = length ids
  /\ (exists used, br = used ++ rest)
  /\ forall ext, readDealIDs n i ids (br ++ ext) = (ids', Ok (rest ++ ext)).
Proof.
  induction n as [|n IH]; intros i ids br ids' rest Hrun;
    cbn [readDealIDs] in *.
  - inversion Hrun; subst. repeat split; auto. now exists [].
  - destruct (CborReadHeader br) as [[[maj val] br1]|e] eqn:Hh;
      [|discriminate].
    destruct (maj =? MajUnsignedInt) eqn:Hm; [|discriminate].
    apply CborReadHeader_Ok in Hh as (_ & Hval & (u1 & -> & _) & Hext).
    apply IH in Hrun as (Hall & Hlen & (u2 & ->) & Hext2).
    split; [|split; [|split]].
    + intros Hids. apply Hall. apply Forall_insert; [exact Hids | exact Hval].
    + now rewrite Hlen, length_insert.
    + exists (u1 ++ u2). now rewrite <- app_assoc.
    + intros ext. rewrite Hext, Hm. apply Hext2.
Qed.

(** What [UnmarshalCBOR] gives when it succeeds. *)
Lemma UnmarshalCBOR_Ok t0 br t' rest :
  UnmarshalCBOR t0 br = (t', Ok rest) ->
  (well_formed t0 -> Z.of_nat (length (DealIDs t0)) <= 8192 ->
   well_formed t' /\ Z.of_nat (length (DealIDs t')) <= 8192)
  /\ (exists used, br = used ++ rest /\ used <> [])
  /\ forall ext, UnmarshalCBOR t0 (br ++ ext) = (t', Ok (rest ++ ext)).
Proof.
  intros H. unfold UnmarshalCBOR in H.
  destruct (CborReadHeader br) as [[[m1 x1] b1]|e1] eqn:E1; [|discriminate].
  destruct (negb (m1 =? MajArray)) eqn:B1; [discriminate|].
  destruct (negb (x1 =? 3)) eqn:B2; [discriminate|].
  destruct (CborReadHeader b1) as [[[m2 x2] b2]|e2] eqn:E2; [|discriminate].
  destruct (x2 >? 8192) eqn:B3; [discriminate|].
  destruct (negb (m2 =? MajArray)) eqn:B4; [discriminate|].
  cbv zeta in H.
  destruct (readDealIDs (Z.to_nat x2) 0
              (if x2 >? 0 then replicate (Z.to_nat x2) 0 else DealIDs t0) b2)
    as [ids [b3|e3]] eqn:E3; [|discriminate].
  destruct (CborReadHeader b3) as [[[m4 x4] b4]|e4] eqn:E4; [|discriminate].
  destruct (negb (m4 =? MajUnsignedInt)) eqn:B5; [discriminate|].
  destruct (CborReadHeader b4) as [[[m5 x5] b5]|e5] eqn:E5; [|discriminate].
  destruct (negb (m5 =? MajOther)) eqn:B6; [discriminate|].
  cbn [Allocated] in H.
  apply CborReadHeader_Ok in E1 as (_ & _ & (u1 & -> & Hu1) & X1).
  apply CborReadHeader_Ok in E2 as (_ & Hx2 & (u2 & -> & _) & X2).
  apply readDealIDs_Ok in E3 as (Hall & Hlen & (u3 & ->) & X3).
  apply CborReadHeader_Ok in E4 as (_ & Hx4 & (u4 & -> & _) & X4).
  apply CborReadHeader_Ok in E5 as (_ & _ & (u5 & -> & _) & X5).
  assert (Hres : rest = b5 /\ DealIDs t' = ids /\ Allocated t' = x4).
  { destruct (x5 =? 20); [now inversion H|].
    destruct (x5 =? 21); [now inversion H | discriminate]. }
  destruct Hres as (-> & Hids & Halloc).
  split; [|split].
  - intros [Hwf0 _] Hlen0. unfold well_formed. rewrite Hids, Halloc.
    assert (Hx : x2 <= 8192) by (destruct (Z.gtb_spec x2 8192); [discriminate | lia]).
    destruct (Z.gtb_spec x2 0) as [Hpos|Hzero].
    + rewrite length_replicate in Hlen.
      split; [split; [|exact Hx4]|lia].
      apply Hall. apply Forall_replicate. unfold is_uint64. lia.
    + split; [split; [now apply Hall | exact Hx4]|lia].
  - exists (u1 ++ u2 ++ u3 ++ u4 ++ u5). split.
    + now rewrite <- !app_assoc.
    + destruct u1; [contradiction | discriminate].
  - intros ext. unfold UnmarshalCBOR.
    rewrite (X1 ext), B1, B2. rewrite (X2 ext), B3, B4. cbv zeta.
    rewrite (X3 ext). rewrite (X4 ext), B5. rewrite (X5 ext), B6.
    cbn [Allocated].
    destruct (x5 =? 20); [now inversion H|].
    destruct (x5 =? 21); [now inversion H | discriminate].
Qed.

End decoder_facts.

Section decoder_theorems.

Import cbg sector.
Local Open Scope Z_scope.

(** [UnmarshalCBOR] reads one value and no further: a successful call has
    consumed a non-empty prefix of the input, and the same call on the
    input followed by more bytes gives the same value and leaves those
    bytes behind what it left before. *)
Theorem UnmarshalCBOR_reads_one_value
    (t0 : DealMapping) (br : list byte) (t' : DealMapping) (rest : list byte) :
  UnmarshalCBOR t0 br = (t', Ok rest) ->
  (exists used, br = used ++ rest /\ used <> [])
  /\ forall ext, UnmarshalCBOR t0 (br ++ ext) = (t', Ok (rest ++ ext)).
Proof. intros H. now apply UnmarshalCBOR_Ok in H as (_ & Hu & Hext). Qed.

Lemma UnmarshalCBOR_reads_one_value_witness :
  (exists used,
      map byte_of_Z [131; 129; 7; 24; 200; 245; 1; 2]
      = used ++ map byte_of_Z [1; 2] /\ used <> [])
  /\ forall ext,
      UnmarshalCBOR zero (map byte_of_Z [131; 129; 7; 24; 200; 245; 1; 2] ++ ext)
      = (mkDealMapping [7] 200 true, Ok (map byte_of_Z [1; 2] ++ ext)).
Proof.
  exact (UnmarshalCBOR_reads_one_value zero
           (map byte_of_Z [131; 129; 7; 24; 200; 245; 1; 2])
           (mkDealMapping [7] 200 true) (map byte_of_Z [1; 2]) eq_refl).
Defined.

(** Whatever bytes it is given, a successful [UnmarshalCBOR] leaves a
    value within bounds: at most 8192 deal ids, every integer a [uint64],
    provided the receiver was within these bounds before (an empty array
    keeps the receiver's slice). *)
Theorem UnmarshalCBOR_output_bounded
    (t0 : DealMapping) (br : list byte) (t' : DealMapping) (rest : list byte) :
  well_formed t0 -> Z.of_nat (length (DealIDs t0)) <= 8192 ->
  UnmarshalCBOR t0 br = (t', Ok rest) ->
  well_formed t' /\ Z.of_nat (length (DealIDs t')) <= 8192.
Proof.
  intros Hwf Hlen H. apply UnmarshalCBOR_Ok in H as (Hb & _ & _). auto.
Qed.

Lemma UnmarshalCBOR_output_bounded_witness :
  well_formed (mkDealMapping [7] 200 true)
  /\ Z.of_nat (length (DealIDs (mkDealMapping [7] 200 true))) <= 8192.
Proof.
  apply (UnmarshalCBOR_output_bounded zero
           (map byte_of_Z [131; 129; 7; 24; 200; 245]) _ []).
  - split; [constructor | unfold is_uint64; cbn; lia].
  - cbn. lia.
  - reflexivity.
Defined.

(** A truncated frame is rejected: no proper prefix of the bytes written
    by [MarshalCBOR] decodes, into any receiver. *)
Theorem UnmarshalCBOR_truncated
    (t0 t : DealMapping) (n : nat) :
  well_formed t -> Z.of_nat (length (DealIDs t)) <= 8192 ->
  (n < length (MarshalCBOR (Some t)))%nat ->
  is_ok (snd (UnmarshalCBOR t0 (take n (MarshalCBOR (Some t))))) = false.
Proof.
  intros Hwf Hlen Hn.
  destruct (UnmarshalCBOR t0 (take n (MarshalCBOR (Some t))))
    as [t' [rest|e]] eqn:Hrun; [|reflexivity].
  exfalso. apply UnmarshalCBOR_Ok in Hrun as (_ & _ & Hext).
  specialize (Hext (drop n (MarshalCBOR (Some t)))).
  rewrite take_drop in Hext.
  pose proof (UnmarshalCBOR_MarshalCBOR t0 t [] Hwf Hlen) as Hfull.
  rewrite app_nil_r in Hfull. rewrite Hfull in Hext.
  assert (Hrest : rest ++ drop n (MarshalCBOR (Some t)) = [])
    by (injection Hext as _ Hr; symmetry; exact Hr).
  apply app_eq_nil in Hrest as [_ Hdrop].
  apply (f_equal length) in Hdrop. rewrite length_drop in Hdrop.
  change (length (@nil byte)) with 0%nat in Hdrop. lia.
Qed.

Lemma UnmarshalCBOR_truncated_witness :
  is_ok (snd (UnmarshalCBOR zero
                (take 5 (MarshalCBOR (Some (mkDealMapping [1; 300] 70000 true))))))
  = false.
Proof.
  apply UnmarshalCBOR_truncated.
  - split; [repeat constructor|]; unfold is_uint64; cbn; lia.
  - cbn. lia.
  - apply Nat.ltb_lt. reflexivity.
Defined.

(** The bytes of a value are self-delimiting: two values within the
    decoder's bounds whose encodings, each followed by any bytes, agree,
    are the same value followed by the same bytes.  In particular
    [MarshalCBOR] is injective on them. *)
Theorem MarshalCBOR_self_delimiting
    (t1 t2 : DealMapping) (r1 r2 : list byte) :
  well_formed t1 -> Z.of_nat (length (DealIDs t1)) <= 8192 ->
  well_formed t2 -> Z.of_nat (length (DealIDs t2)) <= 8192 ->
  MarshalCBOR (Some t1) ++ r1 = MarshalCBOR (Some t2) ++ r2 ->
  t1 = t2 /\ r1 = r2.
Proof.
  intros Hwf1 Hlen1 Hwf2 Hlen2 Heq.
  pose proof (UnmarshalCBOR_MarshalCBOR zero t1 r1 Hwf1 Hlen1) as H1.
  pose proof (UnmarshalCBOR_MarshalCBOR zero t2 r2 Hwf2 Hlen2) as H2.
  rewrite Heq, H2 in H1.
  destruct t1 as [[|v1 l1] a1 c1], t2 as [[|v2 l2] a2 c2];
    cbn in H1; inversion H1; subst; split; reflexivity.
Qed.

Lemma MarshalCBOR_self_delimiting_witness :
  mkDealMapping [1; 300] 70000 true = mkDealMapping [1; 300] 70000 true
  /\ map byte_of_Z [9] = map byte_of_Z [9].
Proof.
  apply MarshalCBOR_self_delimiting.
  - split; [repeat constructor|]; unfold is_uint64; cbn; lia.
  - cbn. lia.
  - split; [repeat constructor|]; unfold is_uint64; cbn; lia.
  - cbn. lia.
  - reflexivity.
Defined.

(** [MarshalCBOR] writes what [UnmarshalCBOR] refuses: the nil receiver is
    written as the CBOR null, which decodes to "cbor input should be of
    type array", and a value with more than 8192 deal ids is written in
    full, the writer having no bound, and decodes to "array too large".
    In both cases the receiver is left untouched. *)
Theorem MarshalCBOR_not_decodable :
  (forall t0 rest,
      UnmarshalCBOR t0 (MarshalCBOR None ++ rest) = (t0, Err ErrNotArray))
  /\ (forall t0 t rest,
      8192 < Z.of_nat (length (DealIDs t)) < 2 ^ 64 ->
      UnmarshalCBOR t0 (MarshalCBOR (Some t) ++ rest)
      = (t0, Err (ErrArrayTooLarge (Z.of_nat (length (DealIDs t)))))).
Proof.
  split.
  - intros t0 rest. reflexivity.
  - intros t0 t rest Hlen. unfold MarshalCBOR.
    change [byte_of_Z 131] with (CborEncodeMajorType MajArray 3).
    rewrite <- !app_assoc.
    eapply UnmarshalCBOR_too_large.
    + apply CborReadHeader_encode; unfold MajArray; lia.
    + apply CborReadHeader_encode; [unfold MajArray; lia | lia].
    + lia.
Qed.

Lemma MarshalCBOR_not_decodable_witness :
  UnmarshalCBOR zero
    (MarshalCBOR (Some (mkDealMapping (replicate (Z.to_nat 8193) 0) 0 false))
     ++ [])
  = (zero,
     Err (ErrArrayTooLarge
            (Z.of_nat (length (DealIDs
               (mkDealMapping (replicate (Z.to_nat 8193) 0) 0 false)))))).
Proof.
  apply (proj2 MarshalCBOR_not_decodable).
  cbn [DealIDs]. rewrite length_replicate. lia.
Defined.

End decoder_theorems.
